(** * deno-redis: the RESP reply reader, the pipeline executor and the
      stream message parser, embedded and verified.

    Sources embedded here:
    - [protocol/reply.ts]  (module [Reply])
    - [pipeline.ts]        (module [Pipeline])
    - [stream.ts]          (module [Stream])

    Parts of the repository that the sources do not hold are modelled
    from the specification, each under a comment that says so: the
    buffered reader, the wire form of RESP values ([Resp]), the encoder
    and [sendCommands] ([Command]), the cluster dispatcher ([Cluster])
    and the subscription ([PubSub]).

    JavaScript values are modelled as follows.  A [Uint8Array] is a
    [list byte].  A JavaScript string is the list of its Unicode scalar
    values ([JsString]); a string literal of the source is written
    [str "..."].  A [Number] that holds an integer is a [Z]; [NaN] is a
    separate constructor. *)

From Stdlib Require Import ZArith NArith List Lia Bool.
From Stdlib Require Import Strings.Byte Strings.Ascii Strings.String.
From Stdlib Require Import Decimal DecimalNat.
From stdpp Require Import gmap strings list.

Set Warnings "-register-all".

Local Open Scope N_scope.

(** ** JavaScript strings and numbers *)

Module Js.

Definition JsString := list N.

(** A source literal (ASCII) as a JavaScript string. *)
Definition str (s : string) : JsString :=
  map Byte.to_N (list_byte_of_string s).

(** The bytes of an ASCII literal, [new TextEncoder().encode("...")]. *)
Definition bytes (s : string) : list byte := list_byte_of_string s.

Inductive JsNumber :=
| NaN
| Num (z : Z).

(** [String(n)] for a non-negative integer: its decimal digits. *)
Fixpoint digits_of_uint (d : Decimal.uint) : list byte :=
  match d with
  | Decimal.Nil => []
  | Decimal.D0 d => "0"%byte :: digits_of_uint d
  | Decimal.D1 d => "1"%byte :: digits_of_uint d
  | Decimal.D2 d => "2"%byte :: digits_of_uint d
  | Decimal.D3 d => "3"%byte :: digits_of_uint d
  | Decimal.D4 d => "4"%byte :: digits_of_uint d
  | Decimal.D5 d => "5"%byte :: digits_of_uint d
  | Decimal.D6 d => "6"%byte :: digits_of_uint d
  | Decimal.D7 d => "7"%byte :: digits_of_uint d
  | Decimal.D8 d => "8"%byte :: digits_of_uint d
  | Decimal.D9 d => "9"%byte :: digits_of_uint d
  end.

Definition String_of_nat (n : nat) : list byte :=
  digits_of_uint (Nat.to_uint n).

Definition String_of_Z (z : Z) : list byte :=
  match z with
  | Zneg p => "-"%byte :: String_of_nat (Pos.to_nat p)
  | _ => String_of_nat (Z.to_nat z)
  end.

(** *** [TextDecoder.decode] (UTF-8, not fatal, BOM stripped)

    The decoder of the Encoding standard: a malformed sequence yields
    U+FFFD and the offending byte is processed again. *)

Record Utf8State := {
  code_point : N;
  bytes_needed : N;
  lower : N;
  upper : N;
}.

Definition utf8_init : Utf8State :=
  {| code_point := 0; bytes_needed := 0; lower := 0x80; upper := 0xBF |}.

Definition REPLACEMENT : N := 0xFFFD.

(** One byte in the state where no continuation byte is awaited. *)
Definition utf8_lead (b : N) : Utf8State * list N :=
  if b <=? 0x7F then (utf8_init, [b])
  else if (0xC2 <=? b) && (b <=? 0xDF) then
    ({| code_point := N.land b 0x1F; bytes_needed := 1;
        lower := 0x80; upper := 0xBF |}, [])
  else if (0xE0 <=? b) && (b <=? 0xEF) then
    ({| code_point := N.land b 0xF; bytes_needed := 2;
        lower := if b =? 0xE0 then 0xA0 else 0x80;
        upper := if b =? 0xED then 0x9F else 0xBF |}, [])
  else if (0xF0 <=? b) && (b <=? 0xF4) then
    ({| code_point := N.land b 0x7; bytes_needed := 3;
        lower := if b =? 0xF0 then 0x90 else 0x80;
        upper := if b =? 0xF4 then 0x8F else 0xBF |}, [])
  else (utf8_init, [REPLACEMENT]).

Definition utf8_step (st : Utf8State) (b : N) : Utf8State * list N :=
  if bytes_needed st =? 0 then utf8_lead b
  else if (lower st <=? b) && (b <=? upper st) then
    let cp := N.lor (N.shiftl (code_point st) 6) (N.land b 0x3F) in
    if bytes_needed st =? 1 then (utf8_init, [cp])
    else ({| code_point := cp; bytes_needed := bytes_needed st - 1;
             lower := 0x80; upper := 0xBF |}, [])
  else
    let '(st', out) := utf8_lead b in (st', REPLACEMENT :: out).

Fixpoint utf8_run (st : Utf8State) (bs : list byte) : list N :=
  match bs with
  | [] => if bytes_needed st =? 0 then [] else [REPLACEMENT]
  | b :: bs' =>
      let '(st', out) := utf8_step st (Byte.to_N b) in
      out ++ utf8_run st' bs'
  end.

Definition decode (bs : list byte) : JsString :=
  match utf8_run utf8_init bs with
  | 0xFEFF :: s => s
  | s => s
  end.

(** A byte that is a character of ASCII. *)
Definition is_ascii (b : byte) : Prop := Byte.to_N b <= 0x7F.

(** *** [TextEncoder.encode] *)

Definition byte_of_N (n : N) : byte :=
  match Byte.of_N (n mod 256) with
  | Some b => b
  | None => x00
  end.

Definition utf8_encode_char (c : N) : list byte :=
  if c <? 0x80 then [byte_of_N c]
  else if c <? 0x800 then
    [byte_of_N (N.lor 0xC0 (N.shiftr c 6));
     byte_of_N (N.lor 0x80 (N.land c 0x3F))]
  else if c <? 0x10000 then
    [byte_of_N (N.lor 0xE0 (N.shiftr c 12));
     byte_of_N (N.lor 0x80 (N.land (N.shiftr c 6) 0x3F));
     byte_of_N (N.lor 0x80 (N.land c 0x3F))]
  else
    [byte_of_N (N.lor 0xF0 (N.shiftr c 18));
     byte_of_N (N.lor 0x80 (N.land (N.shiftr c 12) 0x3F));
     byte_of_N (N.lor 0x80 (N.land (N.shiftr c 6) 0x3F));
     byte_of_N (N.lor 0x80 (N.land c 0x3F))].

Definition encode (s : JsString) : list byte :=
  concat (map utf8_encode_char s).

(** *** [parseInt(string)] without a radix *)

Definition is_white_space (c : N) : bool :=
  ((0x09 <=? c) && (c <=? 0x0D)) || (c =? 0x20) || (c =? 0xA0)
  || (c =? 0x1680) || ((0x2000 <=? c) && (c <=? 0x200A))
  || (c =? 0x2028) || (c =? 0x2029) || (c =? 0x202F) || (c =? 0x205F)
  || (c =? 0x3000) || (c =? 0xFEFF).

Fixpoint trim_start (s : JsString) : JsString :=
  match s with
  | c :: s' => if is_white_space c then trim_start s' else s
  | [] => []
  end.

(** The value of a digit in the given radix, if it is one. *)
Definition digit_value (radix c : N) : option N :=
  let v :=
    if (0x30 <=? c) && (c <=? 0x39) then Some (c - 0x30)
    else if (0x61 <=? c) && (c <=? 0x7A) then Some (c - 0x61 + 10)
    else if (0x41 <=? c) && (c <=? 0x5A) then Some (c - 0x41 + 10)
    else None in
  match v with
  | Some d => if d <? radix then Some d else None
  | None => None
  end.

(** The longest prefix of digits, accumulated; [None] when there is no
    digit at all. *)
Fixpoint parse_digits (radix : N) (s : JsString) (acc : option N)
  : option N :=
  match s with
  | c :: s' =>
      match digit_value radix c with
      | Some d =>
          parse_digits radix s'
            (Some (match acc with Some a => a * radix + d | None => d end))
      | None => acc
      end
  | [] => acc
  end.

(** The result is the integer the digits stand for.  The program holds
    it as a Number: the same integer as long as it is a safe one (see
    [isSafeInteger] below); beyond that a Number is rounded, which this
    definition does not do. *)
Definition parseInt (input : JsString) : JsNumber :=
  let s := trim_start input in
  let '(sign, s) :=
    match s with
    | 0x2D :: s' => ((-1)%Z, s')
    | 0x2B :: s' => (1%Z, s')
    | _ => (1%Z, s)
    end in
  let '(radix, s) :=
    match s with
    | 0x30 :: 0x78 :: s' => (16, s')
    | 0x30 :: 0x58 :: s' => (16, s')
    | _ => (10, s)
    end in
  match parse_digits radix s None with
  | Some n => Num (sign * Z.of_N n)
  | None => NaN
  end.

(** [Number.MAX_SAFE_INTEGER] and [Number.isSafeInteger]: the integers
    a Number holds exactly, each of them apart from its neighbours. *)
Definition MAX_SAFE_INTEGER : Z := 2 ^ 53 - 1.

Definition isSafeInteger (z : Z) : Prop :=
  (- MAX_SAFE_INTEGER <= z <= MAX_SAFE_INTEGER)%Z.

End Js.

(** ** protocol/reply.ts *)

Module Reply.
Import Js.

Definition Uint8Array := list byte.

Definition IntegerReplyCode : byte := ":"%byte.
Definition BulkReplyCode : byte := "$"%byte.
Definition SimpleStringCode : byte := "+"%byte.
Definition ArrayReplyCode : byte := "*"%byte.
Definition ErrorReplyCode : byte := "-"%byte.

Definition CR : byte := x0d.
Definition LF : byte := x0a.

(** *** The buffered reader *)

(** Modelled from the spec: the buffered byte reader of the transport
    ([BufReader] of the vendored std/io).  The reader is the sequence of bytes the server has sent and
    the client has not consumed yet; the end of the list is the end of
    the stream.  Lines are assumed to fit the reader's buffer. *)
Definition BufReader := list byte.

(** The size of the buffer of a [BufReader] made without a size, as the
    connection makes its reader.  [readLine] gives a line that does not
    fit the buffer in pieces, and [readLine] of reply.ts takes the first
    piece for the line. *)
Definition DEFAULT_BUF_SIZE : nat := 4096.

(** [reader.peek(1)]: [None] is [null], the stream is at its end. *)
Definition peek1 (reader : BufReader) : option byte := head reader.

(** The bytes before the first LF and the bytes after it; [None] when
    there is no LF. *)
Fixpoint split_LF (bs : list byte) : option (list byte * list byte) :=
  match bs with
  | [] => None
  | b :: bs' =>
      if Byte.eqb b LF then Some ([], bs')
      else match split_LF bs' with
           | Some (l, rest) => Some (b :: l, rest)
           | None => None
           end
  end.

(** Drop one trailing CR, if there is one. *)
Fixpoint strip_CR (l : list byte) : list byte :=
  match l with
  | [] => []
  | [b] => if Byte.eqb b CR then [] else [b]
  | b :: l' => b :: strip_CR l'
  end.

(** [reader.readLine()]: the line without its end-of-line marker (LF or
    CR LF).  [None] is [null]: nothing is left.  An unterminated last
    line is returned as it is. *)
Definition BufReader_readLine (reader : BufReader)
  : option (Uint8Array * BufReader) :=
  match reader with
  | [] => None
  | _ =>
      match split_LF reader with
      | Some (l, rest) => Some (strip_CR l, rest)
      | None => Some (reader, [])
      end
  end.

Inductive ReadFull :=
| Filled (dest : Uint8Array) (reader : BufReader)
| ReadNull
| PartialRead.

(** [reader.readFull(dest)] for a [dest] of [n] bytes: [null] at the end
    of the stream, an exception when the stream ends inside [dest]. *)
Definition BufReader_readFull (n : nat) (reader : BufReader) : ReadFull :=
  match n, reader with
  | O, _ => Filled [] reader
  | _, [] => ReadNull
  | _, _ =>
      if (n <=? length reader)%nat
      then Filled (take n reader) (drop n reader)
      else PartialRead
  end.

(** *** Errors and the reader monad *)

Inductive Error :=
| EOFError
| InvalidStateError
| UnknownCode (code : byte)          (* InvalidStateError(`unknown code: ...`) *)
| ErrorReplyError (msg : JsString)
| InvalidLine (line : Uint8Array)    (* Error(`invalid line: ${line}`) *)
| PartialReadError
| RangeError
| ConnectionClosed.  (* what the waiter of a failed batch is rejected with *)

(** What a call leaves behind: a value or an exception, and the reader
    after the bytes it consumed.  [OutOfFuel] is not a behaviour of the
    program: the nesting bound of the model was too small. *)
Inductive Outcome (A : Type) :=
| Return (a : A) (reader : BufReader)
| Throw (e : Error) (reader : BufReader)
| OutOfFuel.
Arguments Return {A} a reader.
Arguments Throw {A} e reader.
Arguments OutOfFuel {A}.

Definition M (A : Type) := BufReader -> Outcome A.

Definition ret {A} (a : A) : M A := fun reader => Return a reader.
Definition throw {A} (e : Error) : M A := fun reader => Throw e reader.
Definition bind {A B} (m : M A) (k : A -> M B) : M B :=
  fun reader =>
    match m reader with
    | Return a reader' => k a reader'
    | Throw e reader' => Throw e reader'
    | OutOfFuel => OutOfFuel
    end.

Notation "'await' x <- m ; k" := (bind m (fun x => k))
  (at level 10, x name, m at level 100, k at level 200, only parsing).

(** *** The reply readers *)

(** [readLine] throws when the reader has no line, so the test
    [line == null] of its callers never holds and is left out. *)
Definition readLine : M Uint8Array :=
  fun reader =>
    match BufReader_readLine reader with
    | None => Throw InvalidStateError reader
    | Some (line, reader') => Return line reader'
    end.

Definition parseSize (line : Uint8Array) : JsNumber :=
  parseInt (decode (tail line)).

Definition parseIntegerReply (reply : Uint8Array) : JsNumber :=
  parseInt (decode reply).

(** [tryParseErrorReply] never returns: this is what it throws. *)
Definition tryParseErrorReply (line : Uint8Array) : Error :=
  match line with
  | code :: _ =>
      if Byte.eqb code ErrorReplyCode
      then ErrorReplyError (decode line)
      else InvalidLine line
  | [] => InvalidLine line
  end.

Definition tryReadErrorReply {A} : M A :=
  await line <- readLine;
  throw (tryParseErrorReply line).

Section Readers.
Context {T : Type}.

Definition ParseReply := Uint8Array -> T.

(** A reply as [readReply] returns it: a number, a string, [null], an
    array of replies, or what the caller's [parseReply] made of the
    raw bytes. *)
Inductive RedisReply :=
| RNumber (n : JsNumber)
| RString (s : JsString)
| RNull
| RArray (items : list RedisReply)
| RParsed (t : T).

(** The value of a simple string or of a bulk string: what the
    caller's [parseReply] makes of the raw bytes, or else their text. *)
Definition terminal (parseReply : option ParseReply) (body : Uint8Array)
  : RedisReply :=
  match parseReply with
  | Some p => RParsed (p body)
  | None => RString (decode body)
  end.

Definition readIntegerReply (parseReply : option ParseReply)
  : M RedisReply :=
  await line <- readLine;
  ret (match parseReply with
       | Some p => RParsed (p (tail line))
       | None => RNumber (parseIntegerReply (tail line))
       end).

(** [new Uint8Array(size + 2)] and [reader.readFull(dest)]; the result
    of [readFull] is not looked at, so at the end of the stream [dest]
    keeps its zeroes. *)
Definition readDest (size : JsNumber) : M Uint8Array :=
  fun reader =>
    match size with
    | NaN => Return [] reader
    | Num z =>
        if (2 ^ 53 - 1 <? z + 2)%Z then Throw RangeError reader
        else
          let n := Z.to_nat (z + 2) in
          match BufReader_readFull n reader with
          | Filled dest reader' => Return dest reader'
          | ReadNull => Return (replicate n x00) reader
          | PartialRead => Throw PartialReadError []
          end
    end.

Definition is_negative (n : JsNumber) : bool :=
  match n with
  | Num z => (z <? 0)%Z
  | NaN => false
  end.

Definition readBulkReply (parseReply : option ParseReply)
  : M RedisReply :=
  await line <- readLine;
  match head line with
  | Some c =>
      if Byte.eqb c BulkReplyCode then
        let size := parseSize line in
        if is_negative size then ret RNull
        else
          await dest <- readDest size;
          let body := take (length dest - 2) dest in
          ret (terminal parseReply body)
      else throw (tryParseErrorReply line)
  | None => throw (tryParseErrorReply line)
  end.

Definition readSimpleStringReply (parseReply : option ParseReply)
  : M RedisReply :=
  await line <- readLine;
  match head line with
  | Some c =>
      if Byte.eqb c SimpleStringCode then
        let body := tail line in
        ret (terminal parseReply body)
      else throw (tryParseErrorReply line)
  | None => throw (tryParseErrorReply line)
  end.

(** The loop of [readArrayReply]: [n] more elements, each read by
    [readReply]. *)
Fixpoint readItems (readReply : M RedisReply) (n : nat)
    (array : list RedisReply) : M (list RedisReply) :=
  match n with
  | O => ret array
  | S n' =>
      await item <- readReply;
      readItems readReply n' (array ++ [item])
  end.

(** How often [for (let i = 0; i < argCount; i++)] runs. *)
Definition iterations (argCount : JsNumber) : nat :=
  match argCount with
  | Num z => Z.to_nat z
  | NaN => O
  end.

Definition readArrayReply_with (readReply : M RedisReply)
  : M RedisReply :=
  await line <- readLine;
  let argCount := parseSize line in
  match argCount with
  | Num (-1) => ret RNull
  | _ =>
      await array <- readItems readReply (iterations argCount) [];
      ret (RArray array)
  end.

(** [fuel] bounds the nesting of arrays. *)
Fixpoint readReply (fuel : nat) (parseReply : option ParseReply)
  : M RedisReply :=
  fun reader =>
    match fuel with
    | O => OutOfFuel
    | S fuel' =>
        match peek1 reader with
        | None => Throw EOFError reader
        | Some code =>
            if Byte.eqb code ErrorReplyCode then tryReadErrorReply reader
            else if Byte.eqb code IntegerReplyCode then
              readIntegerReply parseReply reader
            else if Byte.eqb code SimpleStringCode then
              readSimpleStringReply parseReply reader
            else if Byte.eqb code BulkReplyCode then
              readBulkReply parseReply reader
            else if Byte.eqb code ArrayReplyCode then
              readArrayReply_with (readReply fuel' parseReply) reader
            else Throw (UnknownCode code) reader
        end
    end.

Definition readArrayReply (fuel : nat) (parseReply : option ParseReply)
  : M RedisReply :=
  readArrayReply_with (readReply fuel parseReply).

(** Every level of nesting consumes a byte, so the length of the stream
    bounds the nesting. *)
Definition run_readReply (parseReply : option ParseReply) : M RedisReply :=
  fun reader => readReply (S (length reader)) parseReply reader.

End Readers.
Arguments RedisReply T : clear implicits.
Arguments ParseReply T : clear implicits.

Definition okReply : JsString := str "OK".

(** *** What the readers do to the stream *)

(** An error frame is observed on the way from [reader] to [reader']:
    at some position of the stream the next byte is '-', and the line
    read there is the text of the error. *)
Definition observed (reader : BufReader) (msg : JsString)
    (reader' : BufReader) : Prop :=
  exists (at_frame : BufReader) (line : Uint8Array),
    at_frame `suffix_of` reader
    /\ peek1 at_frame = Some ErrorReplyCode
    /\ BufReader_readLine at_frame = Some (line, reader')
    /\ msg = decode line.

(** What a reader function may do to the stream it was given: it
    leaves a suffix behind, and it throws an error reply only for an
    error frame it has met. *)
Definition ok_from {A} (reader : BufReader) (o : Outcome A) : Prop :=
  match o with
  | Return _ reader' => reader' `suffix_of` reader
  | Throw (ErrorReplyError msg) reader' =>
      observed reader msg reader' /\ reader' `suffix_of` reader
  | Throw _ reader' => reader' `suffix_of` reader
  | OutOfFuel => True
  end.

Definition sound {A} (m : M A) : Prop :=
  forall reader, ok_from reader (m reader).

(** An upper-case letter of ASCII, as the codes of error replies begin
    with (ERR, MOVED, ASK, WRONGTYPE). *)
Definition is_upper (b : byte) : bool :=
  (0x41 <=? Byte.to_N b) && (Byte.to_N b <=? 0x5A).

(** The errors [readReply] can end with: the tests [line == null] and
    [line[0] !== code] of the readers it calls cannot fail after its
    own [peek]. *)
Definition thrown_by_readReply (e : Error) : Prop :=
  match e with
  | InvalidStateError | InvalidLine _ | ConnectionClosed => False
  | _ => True
  end.

End Reply.

(** ** RESP values as the server sends them *)

Module Resp.
Import Js Reply.

(** Modelled from the spec: the RESP value of the data model, "a tagged
    variant with five cases", and its frame on the wire.  The text of a
    simple string, of an error and the digits of an integer are the
    bytes of the line after the type byte. *)
Inductive Value :=
| SimpleString (text : Uint8Array)
| Error (text : Uint8Array)
| Integer (i : Z)
| BulkString (b : option Uint8Array)
| Array (items : option (list Value)).

Definition CRLF : list byte := [CR; LF].

Definition line (code : byte) (text : list byte) : list byte :=
  code :: text ++ CRLF.

Definition bulk (b : Uint8Array) : list byte :=
  line BulkReplyCode (String_of_nat (length b)) ++ b ++ CRLF.

Fixpoint wire (v : Value) : list byte :=
  match v with
  | SimpleString text => line SimpleStringCode text
  | Error text => line ErrorReplyCode text
  | Integer i => line IntegerReplyCode (String_of_Z i)
  | BulkString None => line BulkReplyCode (String_of_Z (-1))
  | BulkString (Some b) => bulk b
  | Array None => line ArrayReplyCode (String_of_Z (-1))
  | Array (Some items) =>
      line ArrayReplyCode (String_of_nat (length items))
        ++ concat (map wire items)
  end.

(** No error frame anywhere, and no line that holds an LF. *)
Fixpoint plain (v : Value) : Prop :=
  match v with
  | SimpleString text => LF ∉ text
  | Error _ => False
  | Integer _ => True
  | BulkString _ => True
  | Array None => True
  | Array (Some items) => (fix all (l : list Value) : Prop :=
                             match l with
                             | [] => True
                             | v :: l' => plain v /\ all l'
                             end) items
  end.

(** A buffer the client can allocate together with its CR LF: a typed
    array holds at most [2^53 - 1] bytes. *)
Definition allocatable (b : Uint8Array) : Prop :=
  (Z.of_nat (length b) + 2 <= 2 ^ 53 - 1)%Z.

(** Every bulk string of the value can be allocated by the client. *)
Fixpoint sized (v : Value) : Prop :=
  match v with
  | BulkString (Some b) => allocatable b
  | Array (Some items) => (fix all (l : list Value) : Prop :=
                             match l with
                             | [] => True
                             | v :: l' => sized v /\ all l'
                             end) items
  | _ => True
  end.

(** Every integer of the value and every count of an array is a safe
    integer: the numbers the client reads are the numbers sent. *)
Fixpoint safe (v : Value) : Prop :=
  match v with
  | Integer i => isSafeInteger i
  | Array (Some items) =>
      isSafeInteger (Z.of_nat (length items))
      /\ (fix all (l : list Value) : Prop :=
            match l with
            | [] => True
            | v :: l' => safe v /\ all l'
            end) items
  | _ => True
  end.

(** Every line of a simple string in the value fits the buffer of the
    reader, its CR LF included. *)
Fixpoint buffered (v : Value) : Prop :=
  match v with
  | SimpleString text =>
      (length (line SimpleStringCode text) <= DEFAULT_BUF_SIZE)%nat
  | Array (Some items) => (fix all (l : list Value) : Prop :=
                             match l with
                             | [] => True
                             | v :: l' => buffered v /\ all l'
                             end) items
  | _ => True
  end.

(** A reply frame of the server: an error line, or a value without
    error frames inside. *)
Definition frame (v : Value) : Prop :=
  match v with
  | Error text => LF ∉ text
  | _ => plain v /\ sized v
  end.

(** The nesting of arrays, counting the value itself. *)
Fixpoint depth (v : Value) : nat :=
  match v with
  | Array (Some items) => S (foldr (fun v d => Nat.max (depth v) d) O items)
  | _ => 1%nat
  end.

Section Expected.
Context {T : Type}.

(** What [readReply] returns for a value without error frames.  An
    error frame is thrown, never returned: its case is not used. *)
Fixpoint reply_of (parseReply : option (ParseReply T)) (v : Value)
  : RedisReply T :=
  match v with
  | SimpleString text => terminal parseReply text
  | Error _ => RNull
  | Integer i =>
      match parseReply with
      | Some p => RParsed (p (String_of_Z i))
      | None => RNumber (Num i)
      end
  | BulkString None => RNull
  | BulkString (Some b) => terminal parseReply b
  | Array None => RNull
  | Array (Some items) => RArray (map (reply_of parseReply) items)
  end.

End Expected.

End Resp.

(** ** protocol/command.ts *)

Module Command.
Import Js Reply Resp.

Inductive RedisValue :=
| VString (s : JsString)
| VNumber (n : Z)
| VBytes (b : Uint8Array).

(** Modelled from the spec: "arguments are coerced to byte strings at
    encode time"; the coercion of [encodeCommand], which is not among
    the sources. *)
Definition toBytes (v : RedisValue) : Uint8Array :=
  match v with
  | VString s => encode s
  | VNumber n => String_of_Z n
  | VBytes b => b
  end.

(** Modelled from the spec: [encodeCommand] of protocol/command.ts, of
    which only the test is among the sources.  "A request is [*N\r\n]
    followed by N bulk strings, each [$len\r\n<bytes>\r\n].  The command
    name is the first argument.  All arguments are encoded as
    length-prefixed binary bulks; no escaping." *)
Definition encodeCommand (command : JsString) (args : list RedisValue)
  : Uint8Array :=
  line ArrayReplyCode (String_of_nat (1 + length args))
    ++ bulk (encode command)
    ++ concat (map (fun a => bulk (toBytes a)) args).

(** The request as a RESP value: an array of bulk strings, the command
    name first. *)
Definition request (command : JsString) (args : list RedisValue) : Value :=
  Array (Some (map (fun b => BulkString (Some b))
                 (encode command :: map toBytes args))).

(** The writer of a connection: the bytes flushed to the server so far. *)
Definition BufWriter := list byte.

Section SendCommands.
Context {T : Type}.

(** A queued command, [{ command, args, parseReply? }]. *)
Record CommandRecord := {
  command : JsString;
  args : list RedisValue;
  parseReply : option (ParseReply T);
}.

(** An element of [RawOrError[]]: a reply, or the [ErrorReplyError] the
    server's error frame was turned into. *)
Inductive RawOrError :=
| Raw (reply : RedisReply T)
| ReplyError (msg : JsString).

(** Modelled from the spec: the reading half of [sendCommands]: "read
    exactly [batch.length] reply frames in order.  Each reply is captured
    individually: an error frame becomes an ErrorReplyError value placed
    in the result list (it does not abort the batch)"; and "transport
    failure during a pipeline flush fails the whole batch (waiter
    rejects with ConnectionClosed); partially-observed replies are
    discarded", as for a single command, where "if the framing read
    fails mid-reply [...] the command fails with ConnectionClosed". *)
Fixpoint readReplies (commands : list CommandRecord) (ret : list RawOrError)
  : M (list RawOrError) :=
  match commands with
  | [] => Reply.ret ret
  | c :: commands' =>
      fun reader =>
        match run_readReply (parseReply c) reader with
        | Return rep reader' =>
            readReplies commands' (ret ++ [Raw rep]) reader'
        | Throw (ErrorReplyError msg) reader' =>
            readReplies commands' (ret ++ [ReplyError msg]) reader'
        | Throw _ reader' => Throw ConnectionClosed reader'
        | OutOfFuel => OutOfFuel
        end
  end.

(** Modelled from the spec: [sendCommands] of protocol/command.ts, not
    among the sources: "encode all commands of the head batch as one
    contiguous byte block, flush once, then read exactly [batch.length]
    reply frames in order".  The result is the writer after the flush
    and the outcome of the reads. *)
Definition sendCommands (writer : BufWriter) (reader : BufReader)
    (commands : list CommandRecord)
  : BufWriter * Outcome (list RawOrError) :=
  (writer ++ concat (map (fun c => encodeCommand (command c) (args c))
                       commands),
   readReplies commands [] reader).

(** The element of the result list a frame of the server stands for. *)
Definition result_of (parseReply : option (ParseReply T)) (v : Value)
  : RawOrError :=
  match v with
  | Error text => ReplyError (decode (ErrorReplyCode :: text))
  | _ => Raw (reply_of parseReply v)
  end.

End SendCommands.
Arguments CommandRecord T : clear implicits.
Arguments RawOrError T : clear implicits.

End Command.

(** ** pipeline.ts *)

Module Pipeline.
Import Js Reply Command.

(** A [Deferred] is known by the number of its creation. *)
Definition Deferred := nat.

Inductive Promise (A : Type) :=
| Resolved (value : A)               (* [Promise.resolve(value)] *)
| OfDeferred (d : Deferred).         (* settled later, if at all *)
Arguments Resolved {A} value.
Arguments OfDeferred {A} d.

Section Executor.
Context {T : Type}.

(** [kEmptyRedisArgs] of connection.ts, which is not among the
    sources. *)
Variable kEmptyRedisArgs : list RedisValue.

Record Connection := {
  writer : BufWriter;
  reader : BufReader;
}.

Record QueueEntry := {
  e_commands : list (CommandRecord T);
  e_d : Deferred;
}.

Record PipelineExecutor := {
  connection : Connection;
  tx : bool;
  commands : list (CommandRecord T);
  queue : list QueueEntry;
}.

Record SendCommandOptions := {
  opt_parseReply : option (ParseReply T);
}.

Definition new_PipelineExecutor (connection : Connection) (tx : bool)
  : PipelineExecutor :=
  {| connection := connection; tx := tx; commands := []; queue := [] |}.

Definition sendCommand (self : PipelineExecutor) (command : JsString)
    (args : option (list RedisValue)) (options : option SendCommandOptions)
  : PipelineExecutor * Promise JsString :=
  ({| connection := connection self;
      tx := tx self;
      commands :=
        commands self
          ++ [{| Command.command := command;
                 Command.args := default kEmptyRedisArgs args;
                 Command.parseReply := options ≫= opt_parseReply |}];
      queue := queue self |},
   Resolved okReply).

Definition exec (self : PipelineExecutor) (command : JsString)
    (args : list RedisValue) : PipelineExecutor * Promise JsString :=
  sendCommand self command (Some args) None.

(** How a deferred was settled: [d.resolve(list)] or [d.reject(e)]. *)
Inductive Settled :=
| Fulfilled (value : list (RawOrError T))
| Rejected (e : Error).

(** The executor with what the event loop holds for it: the calls of
    [sendCommands] that have begun and not settled, the number of
    [finally] callbacks that are due, the deferreds settled so far (in
    the order of their settling), and the number of deferreds created. *)
Record Runtime := {
  executor : PipelineExecutor;
  running : list QueueEntry;
  finally_due : nat;
  settled : list (QueueEntry * Settled);
  next_deferred : nat;
}.

Definition MULTI : CommandRecord T :=
  {| Command.command := str "MULTI"; Command.args := [];
     Command.parseReply := None |}.
Definition EXEC : CommandRecord T :=
  {| Command.command := str "EXEC"; Command.args := [];
     Command.parseReply := None |}.

Definition with_executor (rt : Runtime) (self : PipelineExecutor)
  : Runtime :=
  {| executor := self; running := running rt;
     finally_due := finally_due rt; settled := settled rt;
     next_deferred := next_deferred rt |}.

Definition with_commands (self : PipelineExecutor)
    (commands : list (CommandRecord T)) : PipelineExecutor :=
  {| connection := connection self; tx := tx self;
     commands := commands; queue := queue self |}.

Definition with_queue (self : PipelineExecutor) (queue : list QueueEntry)
  : PipelineExecutor :=
  {| connection := connection self; tx := tx self;
     commands := commands self; queue := queue |}.

(** [dequeue]: with an entry at the head of the queue, [sendCommands]
    is called on its commands; its callbacks run when it settles. *)
Definition dequeue (rt : Runtime) : Runtime :=
  match queue (executor rt) with
  | [] => rt
  | e :: _ =>
      {| executor := executor rt; running := running rt ++ [e];
         finally_due := finally_due rt; settled := settled rt;
         next_deferred := next_deferred rt |}
  end.

Definition flush (rt : Runtime) : Runtime * Promise (list (RawOrError T)) :=
  let self := executor rt in
  let self :=
    if tx self
    then with_commands self (MULTI :: commands self ++ [EXEC])
    else self in
  let d := next_deferred rt in
  let self :=
    with_queue self
      (queue self ++ [{| e_commands := commands self; e_d := d |}]) in
  let rt :=
    {| executor := self; running := running rt;
       finally_due := finally_due rt; settled := settled rt;
       next_deferred := S d |} in
  let rt := if (length (queue self) =? 1)%nat then dequeue rt else rt in
  (with_executor rt (with_commands (executor rt) []), OfDeferred d).

(** The [i]-th running call of [sendCommands] settles: the batch is
    written and its replies are read; [e.d.resolve] or [e.d.reject]
    runs, and the [finally] callback becomes due. *)
Definition settle (rt : Runtime) (i : nat) : Runtime :=
  match running rt !! i with
  | None => rt
  | Some e =>
      let self := executor rt in
      let conn := connection self in
      let '(writer', outcome) :=
        sendCommands (writer conn) (reader conn) (e_commands e) in
      let finish (s : Settled) (reader' : BufReader) :=
        {| executor :=
             {| connection := {| writer := writer'; reader := reader' |};
                tx := tx self; commands := commands self;
                queue := queue self |};
           running := delete i (running rt);
           finally_due := S (finally_due rt);
           settled := settled rt ++ [(e, s)];
           next_deferred := next_deferred rt |} in
      match outcome with
      | Return value reader' => finish (Fulfilled value) reader'
      | Throw err reader' => finish (Rejected err) reader'
      | OutOfFuel => rt
      end
  end.

(** The [finally] callback: [this.queue.shift(); this.dequeue()]. *)
Definition finally (rt : Runtime) : Runtime :=
  match finally_due rt with
  | O => rt
  | S due =>
      dequeue
        {| executor := with_queue (executor rt) (tail (queue (executor rt)));
           running := running rt; finally_due := due;
           settled := settled rt; next_deferred := next_deferred rt |}
  end.

(** What can happen to the executor, one event at a time: the caller
    sends a command or flushes, a running batch settles, a [finally]
    callback runs, bytes of the server arrive. *)
Inductive Event :=
| CallSendCommand (command : JsString) (args : option (list RedisValue))
                  (options : option SendCommandOptions)
| CallFlush
| Settle (i : nat)
| Finally
| Receive (data : list byte).

Definition receive (rt : Runtime) (data : list byte) : Runtime :=
  let self := executor rt in
  with_executor rt
    {| connection := {| writer := writer (connection self);
                        reader := reader (connection self) ++ data |};
       tx := tx self; commands := commands self; queue := queue self |}.

Definition step (rt : Runtime) (ev : Event) : Runtime :=
  match ev with
  | CallSendCommand command args options =>
      with_executor rt (fst (sendCommand (executor rt) command args options))
  | CallFlush => fst (flush rt)
  | Settle i => settle rt i
  | Finally => finally rt
  | Receive data => receive rt data
  end.

Definition run (rt : Runtime) (events : list Event) : Runtime :=
  fold_left step events rt.

Definition start (connection : Connection) (tx : bool) : Runtime :=
  {| executor := new_PipelineExecutor connection tx;
     running := []; finally_due := O; settled := []; next_deferred := O |}.

(** *** The batches as the specification describes them *)

Definition record_of (command : JsString) (args : option (list RedisValue))
    (options : option SendCommandOptions) : CommandRecord T :=
  {| Command.command := command;
     Command.args := default kEmptyRedisArgs args;
     Command.parseReply := options ≫= opt_parseReply |}.

(** "If tx mode, prepend MULTI and append EXEC to the current batch." *)
Definition wrap (tx : bool) (batch : list (CommandRecord T))
  : list (CommandRecord T) :=
  if tx then MULTI :: batch ++ [EXEC] else batch.

(** "Commands enqueued between two flush() calls belong strictly to the
    later batch": the batches a sequence of events asks for, given the
    commands that are pending before it. *)
Fixpoint spec_batches (pending : list (CommandRecord T))
    (events : list Event) : list (list (CommandRecord T)) :=
  match events with
  | [] => []
  | CallSendCommand command args options :: events' =>
      spec_batches (pending ++ [record_of command args options]) events'
  | CallFlush :: events' => pending :: spec_batches [] events'
  | _ :: events' => spec_batches pending events'
  end.

(** The commands that are pending after the events. *)
Fixpoint spec_pending (pending : list (CommandRecord T))
    (events : list Event) : list (CommandRecord T) :=
  match events with
  | [] => pending
  | CallSendCommand command args options :: events' =>
      spec_pending (pending ++ [record_of command args options]) events'
  | CallFlush :: events' => spec_pending [] events'
  | _ :: events' => spec_pending pending events'
  end.

(** All the commands the events send, in their order. *)
Fixpoint sent (events : list Event) : list (CommandRecord T) :=
  match events with
  | [] => []
  | CallSendCommand command args options :: events' =>
      record_of command args options :: sent events'
  | _ :: events' => sent events'
  end.

(** The queue entries of these batches: the [n]-th flush creates the
    [n]-th deferred. *)
Fixpoint spec_entries (tx : bool) (d : Deferred)
    (batches : list (list (CommandRecord T))) : list QueueEntry :=
  match batches with
  | [] => []
  | batch :: batches' =>
      {| e_commands := wrap tx batch; e_d := d |}
        :: spec_entries tx (S d) batches'
  end.

(** The entries whose batch has not settled yet. *)
Definition waiting (rt : Runtime) : list QueueEntry :=
  match finally_due rt with
  | O => queue (executor rt)
  | S _ => tail (queue (executor rt))
  end.

(** The bytes of a batch on the wire. *)
Definition encodeBatch (batch : list (CommandRecord T)) : list byte :=
  concat (map (fun c => encodeCommand (Command.command c) (Command.args c))
            batch).

(** A call of [sendCommand]: the command, its arguments, its options. *)
Definition Call : Type :=
  JsString * option (list RedisValue) * option SendCommandOptions.

Definition CallSend (c : Call) : Event :=
  let '(command, args, options) := c in CallSendCommand command args options.

Definition record (c : Call) : CommandRecord T :=
  let '(command, args, options) := c in record_of command args options.

(** *** The invariant of the executor *)

(** Where the executor is in its cycle: idle with an empty queue, one
    batch running for the head of the queue, or one batch settled
    whose [finally] callback is due. *)
Definition phase (rt : Runtime) : Prop :=
  match running rt, finally_due rt with
  | [], O => queue (executor rt) = []
  | [e], O => head (queue (executor rt)) = Some e
  | [], S O => queue (executor rt) <> []
  | _, _ => False
  end.

(** [hist] is the list of the entries created so far and [w0] the
    writer at the start. *)
Record Inv (w0 : BufWriter) (rt : Runtime) (hist : list QueueEntry)
  : Prop := {
  inv_hist : map fst (settled rt) ++ waiting rt = hist;
  inv_ids : map e_d hist = seq 0 (next_deferred rt);
  inv_phase : phase rt;
  inv_writer :
    writer (connection (executor rt))
    = w0 ++ concat (map (fun e => encodeBatch (e_commands e))
                      (map fst (settled rt)));
}.


(** The entry an event creates. *)
Definition created (rt : Runtime) (ev : Event) : list QueueEntry :=
  match ev with
  | CallFlush =>
      [{| e_commands := wrap (tx (executor rt)) (commands (executor rt));
          e_d := next_deferred rt |}]
  | _ => []
  end.

End Executor.
Arguments Connection : clear implicits.
Arguments QueueEntry T : clear implicits.
Arguments PipelineExecutor T : clear implicits.
Arguments SendCommandOptions T : clear implicits.
Arguments Settled T : clear implicits.
Arguments Runtime T : clear implicits.
Arguments Event T : clear implicits.
Arguments Call T : clear implicits.

(** [n] rounds of the event loop: the running batch settles, then its
    [finally] callback runs. *)
Definition rounds {T} (n : nat) : list (Event T) :=
  concat (replicate n [Settle 0; Finally]).

(** *** The scenarios of tests/pipeline_test.ts *)

(** [client.method(args)] on a pipeline: [exec(command, ...args)]. *)
Definition call (command : string) (args : list string) : Call unit :=
  (str command, Some (map (fun a => VString (str a)) args), None).





Definition connection_with (replies : list Resp.Value) : Connection :=
  {| writer := []; reader := concat (map Resp.wire replies) |}.

(** "pipeline in concurrent", with one key: a command and a flush,
    another command and another flush while the first batch is under
    way; then the batches settle one after the other. *)
Definition testConcurrent_events : list (Event unit) :=
  [CallSend (call "SET" ["a"; "a"]); CallFlush;
   CallSend (call "GET" ["a"]); CallFlush;
   Settle 0; Finally; Settle 0; Finally].

Definition testConcurrent_frames : list Resp.Value :=
  [Resp.SimpleString (bytes "OK"); Resp.BulkString (Some (bytes "a"))].

End Pipeline.

(** ** stream.ts *)

Module Stream.
Import Js.

Record XMessage := {
  id : JsString;
  field_values : gmap JsString JsString;
}.

(** [if (f)]: a string is truthy unless it is empty; [undefined] is
    not. *)
Definition truthy (f : option JsString) : bool :=
  match f with
  | Some (_ :: _) => true
  | _ => false
  end.

(** One turn of [for (const data of raw[1])].  The counter [m] is read
    and never written. *)
Definition parseXMessage_body (m : Z)
    (st : option JsString * gmap JsString JsString) (data : JsString)
  : option JsString * gmap JsString JsString :=
  let '(f, field_values) := st in
  if (m mod 2 =? 0)%Z then (Some data, field_values)
  else if truthy f then
    match f with
    | Some key => (f, <[key := data]> field_values)
    | None => (f, field_values)
    end
  else (f, field_values).

Definition parseXMessage (raw : JsString * list JsString) : XMessage :=
  let m := 0%Z in
  let '(_, field_values) :=
    fold_left (parseXMessage_body m) (snd raw) (None, ∅) in
  {| id := fst raw; field_values := field_values |}.

(** The map the pairs of a flat list of fields and values make, later
    pairs over earlier ones. *)
Fixpoint spec_field_values (acc : gmap JsString JsString)
    (items : list JsString) : gmap JsString JsString :=
  match items with
  | field :: value :: items' =>
      spec_field_values (<[field := value]> acc) items'
  | _ => acc
  end.

End Stream.

(** ** The cluster dispatcher *)

Module Cluster.
Import Js Command.

(** A node, [host:port]. *)
Definition Node : Type := JsString * Z.

Record Cmd := {
  name : JsString;
  args : list RedisValue;
}.

Definition ASKING : Cmd := {| name := str "ASKING"; args := [] |}.

(** What a node answers: a reply, or an error frame; [-MOVED slot
    host:port] and [-ASK slot host:port] are kept in parsed form. *)
Inductive NodeReply (V : Type) :=
| Value (v : V)
| MOVED (slot : Z) (target : Node)
| ASK (slot : Z) (target : Node)
| OtherError (text : JsString).
Arguments Value {V} v.
Arguments MOVED {V} slot target.
Arguments ASK {V} slot target.
Arguments OtherError {V} text.

Inductive Result (V : Type) :=
| Reply (v : V)
| ErrorReply (text : JsString)
| CrossSlot
| TooManyRedirections.
Arguments Reply {V} v.
Arguments ErrorReply {V} text.
Arguments CrossSlot {V}.
Arguments TooManyRedirections {V}.

Section Dispatcher.
Context {V : Type}.

(** The servers: what a node answers to a command, given the commands
    its connection has observed before. *)
Variable node_exec : Node -> list Cmd -> Cmd -> NodeReply V.

(** The slot of a key (CRC16 with hash tags) and the keys of a
    command. *)
Variable calculateSlot : JsString -> Z.
Variable keys_of : Cmd -> list JsString.

(** Modelled from the spec: the state of the cluster dispatcher, whose
    module is not among the sources: the slot map, "refreshed
    reactively (only on -MOVED)", and the connections "memoized by
    host:port", each with the commands it has observed, oldest first. *)
Record Dispatcher := {
  slotMap : gmap Z Node;
  connections : gmap Node (list Cmd);
}.

Definition observed (d : Dispatcher) (node : Node) : list Cmd :=
  default [] (connections d !! node).

(** Modelled from the spec: "acquire (or create via the factory) a
    Connection for that node and invoke its executor". *)
Definition send (d : Dispatcher) (node : Node) (cmd : Cmd)
  : Dispatcher * NodeReply V :=
  ({| slotMap := slotMap d;
      connections := <[node := observed d node ++ [cmd]]> (connections d) |},
   node_exec node (observed d node) cmd).

(** Modelled from the spec: steps 4 to 6 of the dispatch.  "If the
    result is [-MOVED slot host:port], update [slotMap[slot] :=
    host:port], acquire that Connection, and retry.  If the result is
    [-ASK slot host:port], send ASKING on that target and then replay the
    command (do not update the slot map).  Track total redirections;
    after [maxRedirections] redirections for a single command, fail." *)
Fixpoint dispatch (redirections : nat) (d : Dispatcher) (target : Node)
    (asking : bool) (cmd : Cmd) : Dispatcher * Result V :=
  let d := if asking then fst (send d target ASKING) else d in
  let '(d, reply) := send d target cmd in
  match reply with
  | Value v => (d, Reply v)
  | OtherError text => (d, ErrorReply text)
  | MOVED slot target' =>
      match redirections with
      | O => (d, TooManyRedirections)
      | S redirections' =>
          dispatch redirections'
            {| slotMap := <[slot := target']> (slotMap d);
               connections := connections d |}
            target' false cmd
      end
  | ASK slot target' =>
      match redirections with
      | O => (d, TooManyRedirections)
      | S redirections' => dispatch redirections' d target' true cmd
      end
  end.

(** Modelled from the spec: steps 1 to 3: the slot of the first key,
    the cross-slot check, the node of the slot or else a seed node. *)
Definition exec (maxRedirections : nat) (seed : Node) (d : Dispatcher)
    (cmd : Cmd) : Dispatcher * Result V :=
  match map calculateSlot (keys_of cmd) with
  | [] => dispatch maxRedirections d seed false cmd
  | slot :: slots =>
      if forallb (Z.eqb slot) slots
      then dispatch maxRedirections d (default seed (slotMap d !! slot))
             false cmd
      else (d, CrossSlot)
  end.

End Dispatcher.

(** *** The scenario of the redirection test *)

Definition nodeA : Node := (str "127.0.0.1", 7000%Z).
Definition nodeB : Node := (str "127.0.0.1", 7001%Z).

(** The proxy of the test: the first node redirects with [-ASK], the
    other one answers. *)
Definition ask_exec (node : Node) (_ : list Cmd) (_ : Cmd)
  : NodeReply JsString :=
  if decide (node = nodeA) then ASK 866 nodeB else Value (str "piyo").

Definition get_hoge : Cmd :=
  {| name := str "GET"; args := [VString (str "hoge")] |}.

Definition fresh : Dispatcher := {| slotMap := ∅; connections := ∅ |}.

End Cluster.

(** ** Subscriptions *)

Module PubSub.
Import Js.

Record Message := {
  pattern : option JsString;
  channel : JsString;
  message : JsString;
}.

(** The push frames of the server. *)
Inductive Push :=
| Ack (kind : JsString) (name : JsString) (count : Z)
| PMessage (pattern : JsString) (channel : JsString) (payload : JsString)
| ChannelMessage (channel : JsString) (payload : JsString).

(** The connection of the subscription: ready, lost by a transport
    failure, or closed by the program. *)
Inductive ConnectionState := Ready | Lost | Closed.

Inductive SubCommand :=
| SUBSCRIBE (names : list JsString)
| PSUBSCRIBE (names : list JsString)
| UNSUBSCRIBE (names : list JsString)
| PUNSUBSCRIBE (names : list JsString).

(** Modelled from the spec: the subscription state of the pub/sub
    executor, whose module is not among the sources: "channels: set of
    text, patterns: set of text, inbox, closed", with the connection it
    owns, the frames pushed and not consumed yet, and the commands it
    has sent. *)
Record Subscription := {
  channels : gset JsString;
  patterns : gset JsString;
  isClosed : bool;
  state : ConnectionState;
  inbox : list Push;
  outbox : list SubCommand;
  maxRetryCount : nat;
}.

(** What the consumer gets when it asks for the next element. *)
Inductive Next :=
| Yield (m : Message)
| Done
| Blocked                       (* nothing pushed yet: the consumer waits *)
| Raise (error : JsString).

Definition with_state (sub : Subscription) (st : ConnectionState)
    (closed : bool) (inbox : list Push) (outbox : list SubCommand)
  : Subscription :=
  {| channels := channels sub; patterns := patterns sub;
     isClosed := closed; state := st; inbox := inbox; outbox := outbox;
     maxRetryCount := maxRetryCount sub |}.

(** Modelled from the spec: closing the client closes the connection;
    its waiters are cancelled with BadResource. *)
Definition client_close (sub : Subscription) : Subscription :=
  with_state sub Closed (isClosed sub) (inbox sub) (outbox sub).

(** Modelled from the spec: "Close removes all channels, sends
    UNSUBSCRIBE/PUNSUBSCRIBE if the connection is healthy, terminates
    receive() cleanly, and closes the Connection." *)
Definition close (sub : Subscription) : Subscription :=
  {| channels := ∅; patterns := ∅; isClosed := true; state := Closed;
     inbox := inbox sub;
     outbox :=
       match state sub with
       | Ready =>
           outbox sub ++ [UNSUBSCRIBE (elements (channels sub));
                          PUNSUBSCRIBE (elements (patterns sub))]
       | _ => outbox sub
       end;
     maxRetryCount := maxRetryCount sub |}.

(** The server pushes a frame. *)
Definition push (sub : Subscription) (frame : Push) : Subscription :=
  with_state sub (state sub) (isClosed sub) (inbox sub ++ [frame])
    (outbox sub).

(** The frames at the head of the inbox that are acknowledgements are
    consumed; the first message is delivered. *)
Fixpoint deliver (inbox : list Push) : option Message * list Push :=
  match inbox with
  | [] => (None, [])
  | Ack _ _ _ :: inbox' => deliver inbox'
  | ChannelMessage c p :: inbox' =>
      (Some {| pattern := None; channel := c; message := p |}, inbox')
  | PMessage pat c p :: inbox' =>
      (Some {| pattern := Some pat; channel := c; message := p |}, inbox')
  end.

(** Modelled from the spec: one pull on [receive()].  The sequence
    "ends when the Subscription is closed or the underlying Connection
    is closed", and "closed => inbox is drained then terminated": what
    was pushed before is still delivered, then the BadResource of the
    cancelled read ends the sequence without an error and the
    subscription is marked closed.  "On transport loss with
    maxRetryCount>0, the Subscription reconnects the underlying
    Connection and re-issues SUBSCRIBE/PSUBSCRIBE for all tracked names
    before resuming reads"; without retries the loss is raised. *)
Definition receive_next (sub : Subscription) : Next * Subscription :=
  let '(delivered, inbox') := deliver (inbox sub) in
  match (if isClosed sub then Closed else state sub) with
  | Closed =>
      match delivered with
      | Some m => (Yield m, with_state sub Closed true inbox' (outbox sub))
      | None => (Done, with_state sub Closed true inbox' (outbox sub))
      end
  | Lost =>
      match maxRetryCount sub with
      | O => (Raise (str "ConnectionClosed"), sub)
      | S _ =>
          (match delivered with Some m => Yield m | None => Blocked end,
           with_state sub Ready false inbox'
             (outbox sub ++ [SUBSCRIBE (elements (channels sub));
                             PSUBSCRIBE (elements (patterns sub))]))
      end
  | Ready =>
      (match delivered with Some m => Yield m | None => Blocked end,
       with_state sub Ready false inbox' (outbox sub))
  end.

(** The consumer of [for await (const _ of sub.receive())]: it pulls
    until the sequence is done, an error is raised or nothing is there
    to read; the result is what ended the loop.  [None]: the loop was
    cut after [fuel] messages. *)
Fixpoint consume (fuel : nat) (sub : Subscription)
  : option (Next * Subscription) :=
  match fuel with
  | O => None
  | S fuel' =>
      match receive_next sub with
      | (Yield _, sub') => consume fuel' sub'
      | end_of_loop => Some end_of_loop
      end
  end.

(** The subscription is closed, or its connection is. *)
Definition closing (sub : Subscription) : Prop :=
  isClosed sub = true \/ state sub = Closed.

(** The scenario of the test: a subscription to one channel, its
    acknowledgement consumed, nothing else pushed. *)
Definition testSubscription : Subscription :=
  {| channels := {[str "test"]}; patterns := ∅; isClosed := false;
     state := Ready; inbox := []; outbox := [SUBSCRIBE [str "test"]];
     maxRetryCount := 10 |}.

End PubSub.

(** * Proofs *)

(** ** JavaScript strings and numbers *)

Module JsFacts.
Import Js.

Lemma utf8_run_ascii (bs : list byte) :
  Forall is_ascii bs -> utf8_run utf8_init bs = map Byte.to_N bs.
Proof.
  induction 1 as [|b bs Hb _ IH]; [reflexivity|].
  cbn [utf8_run map]. unfold utf8_step, utf8_lead. cbn [bytes_needed utf8_init].
  change (0 =? 0) with true. cbv iota.
  unfold is_ascii in Hb. apply N.leb_le in Hb. rewrite Hb.
  cbn [app]. now rewrite IH.
Qed.

Lemma decode_ascii (bs : list byte) :
  Forall is_ascii bs -> decode bs = map Byte.to_N bs.
Proof.
  intros H. unfold decode. rewrite utf8_run_ascii by exact H.
  destruct H as [|b bs Hb _]; [reflexivity|].
  cbn [map]. unfold is_ascii in Hb.
  destruct (Byte.to_N b) as [|p] eqn:E; [reflexivity|].
  assert (N.pos p <> 0xFEFF) as Hne by lia.
  repeat (destruct p as [p|p|]; try reflexivity); exfalso; apply Hne; reflexivity.
Qed.

Lemma digits_ascii (d : Decimal.uint) : Forall is_ascii (digits_of_uint d).
Proof.
  induction d; cbn [digits_of_uint]; constructor; try assumption;
    unfold is_ascii; vm_compute; discriminate.
Qed.

Lemma parse_digits_uint (d : Decimal.uint) (acc : N) :
  parse_digits 10 (map Byte.to_N (digits_of_uint d)) (Some acc)
  = Some (N.of_nat (Nat.of_uint_acc d (N.to_nat acc))).
Proof.
  revert acc.
  induction d; intros acc; cbn [digits_of_uint map parse_digits];
    [ cbn [Nat.of_uint_acc]; now rewrite N2Nat.id | .. ];
    match goal with
    | |- context [digit_value 10 ?c] =>
        let v := eval vm_compute in (digit_value 10 c) in
        change (digit_value 10 c) with v
    end;
    cbv iota; rewrite IHd; do 2 f_equal;
    cbn [Nat.of_uint_acc]; rewrite Nat.tail_mul_spec; f_equal; lia.
Qed.

Ltac digit_codes :=
  change (Byte.to_N "0") with 48; change (Byte.to_N "1") with 49;
  change (Byte.to_N "2") with 50; change (Byte.to_N "3") with 51;
  change (Byte.to_N "4") with 52; change (Byte.to_N "5") with 53;
  change (Byte.to_N "6") with 54; change (Byte.to_N "7") with 55;
  change (Byte.to_N "8") with 56; change (Byte.to_N "9") with 57.

Lemma parseInt_signed_uint (d : Decimal.uint) (minus : bool) :
  d <> Decimal.Nil ->
  parseInt ((if minus then [45] else []) ++ map Byte.to_N (digits_of_uint d))
  = Num ((if minus then -1 else 1) * Z.of_nat (Nat.of_uint d)).
Proof.
  intros Hd. unfold parseInt.
  destruct minus;
  destruct d as [|d|d|d|d|d|d|d|d|d|d]; try congruence;
  destruct d as [|d|d|d|d|d|d|d|d|d|d];
  cbn [digits_of_uint map app]; digit_codes; cbn [trim_start];
  match goal with
  | |- context [is_white_space ?c] =>
        let v := eval vm_compute in (is_white_space c) in
        change (is_white_space c) with v
  end; cbv iota beta; cbn [parse_digits];
  repeat match goal with
  | |- context [digit_value 10 ?c] =>
        let v := eval vm_compute in (digit_value 10 c) in
        change (digit_value 10 c) with v; cbv iota beta
  end.
  all: try reflexivity.
  all: rewrite parse_digits_uint; f_equal; rewrite nat_N_Z;
    f_equal; f_equal; unfold Nat.of_uint; cbn [Nat.of_uint_acc]; f_equal;
    rewrite !Nat.tail_mul_spec; lia.
Qed.

Lemma to_uint_not_Nil (n : nat) : Nat.to_uint n <> Decimal.Nil.
Proof.
  intros H. pose proof (DecimalNat.Unsigned.to_of (Nat.to_uint n)) as E.
  rewrite DecimalNat.Unsigned.of_to, H in E.
  unfold Decimal.unorm in E. cbn in E. discriminate.
Qed.

Lemma parseInt_nat (n : nat) :
  parseInt (decode (String_of_nat n)) = Num (Z.of_nat n).
Proof.
  unfold String_of_nat. rewrite decode_ascii by apply digits_ascii.
  etransitivity;
    [exact (parseInt_signed_uint _ false (to_uint_not_Nil n))|].
  rewrite DecimalNat.Unsigned.of_to. f_equal. lia.
Qed.

Lemma parseInt_Z (z : Z) :
  parseInt (decode (String_of_Z z)) = Num z.
Proof.
  destruct z as [|p|p]; cbn [String_of_Z].
  - apply (parseInt_nat 0).
  - rewrite parseInt_nat. now rewrite Z2Nat.id by lia.
  - rewrite decode_ascii
      by (constructor; [unfold is_ascii; vm_compute; discriminate
                       | apply digits_ascii]).
    cbn [map]. change (Byte.to_N "-") with 45.
    unfold String_of_nat.
    etransitivity;
      [exact (parseInt_signed_uint _ true (to_uint_not_Nil _))|].
    rewrite DecimalNat.Unsigned.of_to. f_equal. lia.
Qed.

End JsFacts.

(** ** The buffered reader and single frames *)

Module ReplyFacts.
Import Js Reply JsFacts.

Lemma byte_eqb_refl (b : byte) : Byte.eqb b b = true.
Proof. now apply Byte.byte_dec_lb. Qed.

Lemma byte_eqb_neq (a b : byte) : a <> b -> Byte.eqb a b = false.
Proof.
  intros H. destruct (Byte.eqb a b) eqn:E; [|reflexivity].
  now apply Byte.byte_dec_bl in E.
Qed.

Lemma split_LF_app (l rest : list byte) :
  LF ∉ l -> split_LF (l ++ LF :: rest) = Some (l, rest).
Proof.
  induction l as [|b l IH]; intros Hnot; cbn [split_LF app].
  - now rewrite byte_eqb_refl.
  - apply not_elem_of_cons in Hnot as [Hb Hl].
    rewrite byte_eqb_neq by congruence. now rewrite IH.
Qed.

Lemma split_LF_None (l : list byte) : LF ∉ l -> split_LF l = None.
Proof.
  induction l as [|b l IH]; intros Hnot; cbn [split_LF]; [reflexivity|].
  apply not_elem_of_cons in Hnot as [Hb Hl].
  rewrite byte_eqb_neq by congruence. now rewrite IH.
Qed.

Lemma split_LF_Some (bs l rest : list byte) :
  split_LF bs = Some (l, rest) -> bs = l ++ LF :: rest /\ LF ∉ l.
Proof.
  revert l. induction bs as [|b bs IH]; intros l; cbn [split_LF]; [discriminate|].
  destruct (Byte.eqb b LF) eqn:E.
  - apply Byte.byte_dec_bl in E. intros [= <- <-]. subst b.
    split; [reflexivity|apply not_elem_of_nil].
  - destruct (split_LF bs) as [[l' rest']|]; [|discriminate].
    intros [= <- <-]. destruct (IH l' eq_refl) as [-> Hl].
    split; [reflexivity|]. apply not_elem_of_cons. split; [|exact Hl].
    intros Heq. rewrite <- Heq in E. now rewrite byte_eqb_refl in E.
Qed.

Lemma strip_CR_snoc (l : list byte) : strip_CR (l ++ [CR]) = l.
Proof.
  induction l as [|b l IH]; [reflexivity|].
  cbn [app]. destruct l as [|b' l]; [reflexivity|].
  cbn [app strip_CR] in *. now rewrite IH.
Qed.

Lemma strip_CR_prefix (l : list byte) : strip_CR l `prefix_of` l.
Proof.
  induction l as [|b l IH]; [reflexivity|].
  destruct l as [|b' l].
  - cbn. destruct (Byte.eqb b CR); [apply prefix_nil|reflexivity].
  - change (strip_CR (b :: b' :: l)) with (b :: strip_CR (b' :: l)).
    now apply prefix_cons.
Qed.

Lemma strip_CR_head (c : byte) (l : list byte) :
  c <> CR -> head (strip_CR (c :: l)) = Some c.
Proof.
  intros Hc. destruct l; cbn; [now rewrite byte_eqb_neq|reflexivity].
Qed.

(** Reading a terminated line. *)
Lemma BufReader_readLine_line (code : byte) (text rest : list byte) :
  code <> LF -> LF ∉ text ->
  BufReader_readLine (Resp.line code text ++ rest)
  = Some (code :: text, rest).
Proof.
  intros Hc Ht. unfold Resp.line, Resp.CRLF, BufReader_readLine.
  cbn [app].
  replace (code :: (text ++ [CR; LF]) ++ rest)
    with (((code :: text) ++ [CR]) ++ LF :: rest)
    by (cbn [app]; now rewrite <- !app_assoc).
  cbn [app].
  change (code :: (text ++ [CR]) ++ LF :: rest)
    with (((code :: text) ++ [CR]) ++ LF :: rest).
  rewrite split_LF_app.
  - now rewrite strip_CR_snoc.
  - rewrite not_elem_of_app, not_elem_of_cons. repeat split.
    + congruence.
    + exact Ht.
    + rewrite not_elem_of_cons.
      split; [unfold LF, CR; discriminate|apply not_elem_of_nil].
Qed.

Lemma readLine_line (code : byte) (text rest : list byte) :
  code <> LF -> LF ∉ text ->
  readLine (Resp.line code text ++ rest) = Return (code :: text) rest.
Proof.
  intros Hc Ht. unfold readLine. now rewrite BufReader_readLine_line.
Qed.

Lemma digits_no_LF (d : Decimal.uint) : LF ∉ digits_of_uint d.
Proof.
  induction d; cbn [digits_of_uint];
    [apply not_elem_of_nil
    |apply not_elem_of_cons; split; [unfold LF; discriminate|exact IHd]..].
Qed.

Lemma String_of_nat_no_LF (n : nat) : LF ∉ String_of_nat n.
Proof. apply digits_no_LF. Qed.

Lemma String_of_Z_no_LF (z : Z) : LF ∉ String_of_Z z.
Proof.
  destruct z; cbn [String_of_Z]; try apply String_of_nat_no_LF.
  rewrite not_elem_of_cons.
  split; [unfold LF; discriminate|apply String_of_nat_no_LF].
Qed.

Lemma BufReader_readFull_app (body rest : list byte) :
  body <> [] ->
  BufReader_readFull (length body) (body ++ rest) = Filled body rest.
Proof.
  intros Hb. unfold BufReader_readFull.
  destruct body as [|b body]; [congruence|].
  change (length (b :: body)) with (S (length body)).
  change ((b :: body) ++ rest) with (b :: (body ++ rest)).
  cbv iota.
  change (b :: (body ++ rest)) with ((b :: body) ++ rest).
  change (S (length body)) with (length (b :: body)).
  replace (length (b :: body) <=? length ((b :: body) ++ rest))%nat
    with true by (symmetry; apply Nat.leb_le; rewrite length_app; lia).
  now rewrite take_app_length, drop_app_length.
Qed.

(** *** Single frames *)

Section Frames.
Context {T : Type}.
Implicit Types (parseReply : option (ParseReply T)) (rest : list byte).

Local Ltac codes :=
  repeat match goal with
  | |- context [Byte.eqb ?a ?b] =>
      let v := eval vm_compute in (Byte.eqb a b) in
      change (Byte.eqb a b) with v
  end; cbv iota.

Lemma readReply_S fuel parseReply (c : byte) (reader : BufReader) :
  readReply (S fuel) parseReply (c :: reader)
  = if Byte.eqb c ErrorReplyCode then tryReadErrorReply (c :: reader)
    else if Byte.eqb c IntegerReplyCode then
      readIntegerReply parseReply (c :: reader)
    else if Byte.eqb c SimpleStringCode then
      readSimpleStringReply parseReply (c :: reader)
    else if Byte.eqb c BulkReplyCode then
      readBulkReply parseReply (c :: reader)
    else if Byte.eqb c ArrayReplyCode then
      readArrayReply_with (readReply fuel parseReply) (c :: reader)
    else Throw (UnknownCode c) (c :: reader).
Proof. reflexivity. Qed.

Lemma readReply_simple fuel parseReply text rest :
  LF ∉ text ->
  readReply (S fuel) parseReply (Resp.line SimpleStringCode text ++ rest)
  = Return (terminal parseReply text) rest.
Proof.
  intros Ht. change (Resp.line SimpleStringCode text ++ rest)
    with (SimpleStringCode :: (text ++ Resp.CRLF) ++ rest).
  rewrite readReply_S. codes.
  change (SimpleStringCode :: (text ++ Resp.CRLF) ++ rest)
    with (Resp.line SimpleStringCode text ++ rest).
  unfold readSimpleStringReply, bind.
  rewrite readLine_line by (try exact Ht; discriminate).
  cbn [head tail]. codes. reflexivity.
Qed.

Lemma readReply_error fuel parseReply text rest :
  LF ∉ text ->
  readReply (S fuel) parseReply (Resp.line ErrorReplyCode text ++ rest)
  = Throw (ErrorReplyError (decode (ErrorReplyCode :: text))) rest.
Proof.
  intros Ht. change (Resp.line ErrorReplyCode text ++ rest)
    with (ErrorReplyCode :: (text ++ Resp.CRLF) ++ rest).
  rewrite readReply_S. codes.
  change (ErrorReplyCode :: (text ++ Resp.CRLF) ++ rest)
    with (Resp.line ErrorReplyCode text ++ rest).
  unfold tryReadErrorReply, bind.
  rewrite readLine_line by (try exact Ht; discriminate).
  unfold throw, tryParseErrorReply. codes. reflexivity.
Qed.

Lemma readReply_integer fuel parseReply (i : Z) rest :
  readReply (S fuel) parseReply
    (Resp.line IntegerReplyCode (String_of_Z i) ++ rest)
  = Return (match parseReply with
            | Some p => RParsed (p (String_of_Z i))
            | None => RNumber (Num i)
            end) rest.
Proof.
  change (Resp.line IntegerReplyCode (String_of_Z i) ++ rest)
    with (IntegerReplyCode :: (String_of_Z i ++ Resp.CRLF) ++ rest).
  rewrite readReply_S. codes.
  change (IntegerReplyCode :: (String_of_Z i ++ Resp.CRLF) ++ rest)
    with (Resp.line IntegerReplyCode (String_of_Z i) ++ rest).
  unfold readIntegerReply, bind.
  rewrite readLine_line by (try apply String_of_Z_no_LF; discriminate).
  cbn [tail]. unfold ret, parseIntegerReply. now rewrite parseInt_Z.
Qed.

Lemma readReply_nil fuel parseReply rest :
  readReply (S fuel) parseReply
    (Resp.line BulkReplyCode (String_of_Z (-1)) ++ rest)
  = Return RNull rest.
Proof.
  change (Resp.line BulkReplyCode (String_of_Z (-1)) ++ rest)
    with (BulkReplyCode :: (String_of_Z (-1) ++ Resp.CRLF) ++ rest).
  rewrite readReply_S. codes.
  change (BulkReplyCode :: (String_of_Z (-1) ++ Resp.CRLF) ++ rest)
    with (Resp.line BulkReplyCode (String_of_Z (-1)) ++ rest).
  unfold readBulkReply, bind.
  rewrite readLine_line by (try apply String_of_Z_no_LF; discriminate).
  cbn [head tail]. codes. unfold parseSize. cbn [tail].
  now rewrite parseInt_Z.
Qed.

Lemma readReply_bulk fuel parseReply (b : Uint8Array) rest :
  Resp.allocatable b ->
  readReply (S fuel) parseReply (Resp.bulk b ++ rest)
  = Return (terminal parseReply b) rest.
Proof.
  intros Hb. unfold Resp.bulk. rewrite <- !app_assoc.
  change (Resp.line BulkReplyCode (String_of_nat (length b)) ++ b ++ Resp.CRLF ++ rest)
    with (BulkReplyCode :: (String_of_nat (length b) ++ Resp.CRLF) ++ b ++ Resp.CRLF ++ rest).
  rewrite readReply_S. codes.
  change (BulkReplyCode :: (String_of_nat (length b) ++ Resp.CRLF) ++ b ++ Resp.CRLF ++ rest)
    with (Resp.line BulkReplyCode (String_of_nat (length b)) ++ b ++ Resp.CRLF ++ rest).
  unfold readBulkReply, bind.
  rewrite readLine_line by (try apply String_of_nat_no_LF; discriminate).
  cbn [head tail]. codes. unfold parseSize. cbn [tail].
  rewrite parseInt_nat. unfold is_negative.
  replace (Z.of_nat (length b) <? 0)%Z with false by (symmetry; apply Z.ltb_ge; lia).
  unfold readDest.
  replace (2 ^ 53 - 1 <? Z.of_nat (length b) + 2)%Z with false
    by (symmetry; apply Z.ltb_ge; exact Hb).
  replace (Z.to_nat (Z.of_nat (length b) + 2)) with (length (b ++ Resp.CRLF))
    by (rewrite length_app; cbn [length Resp.CRLF]; lia).
  rewrite app_assoc.
  rewrite BufReader_readFull_app by (destruct b; discriminate).
  unfold ret. f_equal.
  replace (take (length (b ++ Resp.CRLF) - 2) (b ++ Resp.CRLF)) with b; [reflexivity|].
  rewrite length_app. cbn [length Resp.CRLF].
  replace (length b + 2 - 2)%nat with (length b) by lia.
  now rewrite take_app_length.
Qed.

End Frames.

Import Resp.
Local Open Scope nat_scope.

(** C7.  [readBulkReply] on a length line that carries [-1] returns
    [null] and consumes nothing more; on a length line that carries a
    length [len], with [len + 2] bytes to follow, it consumes exactly
    these bytes and the value is made of the first [len] of them, the
    two last bytes (CR LF) stripped, unchanged. *)
Theorem readBulkReply_length {T} (parseReply : option (ParseReply T))
    (reader : BufReader) (line : Uint8Array) (after_line : BufReader) :
  readLine reader = Return line after_line ->
  head line = Some BulkReplyCode ->
  (parseSize line = Num (-1) ->
     readBulkReply parseReply reader = Return RNull after_line)
  /\ (forall (len : nat) (consumed rest : list byte),
        parseSize line = Num (Z.of_nat len) ->
        allocatable (take len consumed) ->
        after_line = consumed ++ rest ->
        length consumed = len + 2 ->
        readBulkReply parseReply reader
        = Return (terminal parseReply (take len consumed)) rest
        /\ length (take len consumed) = len
        /\ (forall body, consumed = body ++ CRLF -> take len consumed = body)).
Proof.
  intros Hline Hhead. unfold readBulkReply, bind. rewrite Hline, Hhead.
  change (Byte.eqb BulkReplyCode BulkReplyCode) with true. cbv iota.
  split.
  - intros ->. reflexivity.
  - intros len consumed rest -> Halloc -> Hlen.
    assert (length (take len consumed) = len) as Htake
      by (rewrite length_take; lia).
    unfold allocatable in Halloc. rewrite Htake in Halloc.
    unfold is_negative.
    replace (Z.of_nat len <? 0)%Z with false
      by (symmetry; apply Z.ltb_ge; lia).
    unfold readDest.
    replace (2 ^ 53 - 1 <? Z.of_nat len + 2)%Z with false
      by (symmetry; apply Z.ltb_ge; exact Halloc).
    replace (Z.to_nat (Z.of_nat len + 2)) with (length consumed) by lia.
    rewrite BufReader_readFull_app
      by (intros ->; cbn in Hlen; lia).
    unfold ret. rewrite Hlen.
    replace (len + 2 - 2) with len by lia.
    split; [reflexivity|]. split; [exact Htake|].
    intros body ->. rewrite length_app in Hlen. cbn [length CRLF] in Hlen.
    replace len with (length body) by lia. apply take_app_length.
Qed.

Lemma readBulkReply_length_witness :
  readLine (bytes "$3" ++ CRLF ++ bytes "bar" ++ CRLF ++ bytes "+OK")
  = Return (bytes "$3") (bytes "bar" ++ CRLF ++ bytes "+OK")
  /\ head (bytes "$3") = Some BulkReplyCode
  /\ parseSize (bytes "$3") = Num (Z.of_nat 3)
  /\ readBulkReply (T:=Uint8Array) None
       (bytes "$3" ++ CRLF ++ bytes "bar" ++ CRLF ++ bytes "+OK")
     = Return (RString (str "bar")) (bytes "+OK").
Proof.
  assert (readLine (bytes "$3" ++ CRLF ++ bytes "bar" ++ CRLF ++ bytes "+OK")
          = Return (bytes "$3") (bytes "bar" ++ CRLF ++ bytes "+OK")) as Hl
    by (vm_compute; reflexivity).
  assert (head (bytes "$3") = Some BulkReplyCode) as Hh
    by (vm_compute; reflexivity).
  assert (parseSize (bytes "$3") = Num (Z.of_nat 3)) as Hs
    by (vm_compute; reflexivity).
  assert (allocatable (take 3 (bytes "bar" ++ CRLF))) as Ha
    by (unfold allocatable; vm_compute; discriminate).
  split; [exact Hl|]. split; [exact Hh|]. split; [exact Hs|].
  exact (proj1 (proj2 (readBulkReply_length (T:=Uint8Array) None _ _ _ Hl Hh)
                 3 (bytes "bar" ++ CRLF) (bytes "+OK") Hs Ha
                 eq_refl eq_refl)).
Defined.

(** For the record: any negative length is answered with [null], not
    only [-1]. *)
Lemma readBulkReply_negative {T} (parseReply : option (ParseReply T))
    (reader : BufReader) (line : Uint8Array) (after_line : BufReader) z :
  readLine reader = Return line after_line ->
  head line = Some BulkReplyCode ->
  parseSize line = Num z -> (z < 0)%Z ->
  readBulkReply parseReply reader = Return RNull after_line.
Proof.
  intros Hline Hhead Hs Hz. unfold readBulkReply, bind.
  rewrite Hline, Hhead.
  change (Byte.eqb BulkReplyCode BulkReplyCode) with true. cbv iota.
  rewrite Hs. unfold is_negative.
  replace (z <? 0)%Z with true by (symmetry; apply Z.ltb_lt; lia).
  reflexivity.
Qed.

End ReplyFacts.

(** ** Values on the wire are read back *)

Module RespFacts.
Import Js Reply Resp JsFacts ReplyFacts.

(** Induction on a value with the hypothesis for every item of an
    array. *)
Lemma Value_ind' (P : Value -> Prop)
  (Hs : forall text, P (SimpleString text))
  (He : forall text, P (Error text))
  (Hi : forall i, P (Integer i))
  (Hb : forall b, P (BulkString b))
  (Hn : P (Array None))
  (Ha : forall items, Forall P items -> P (Array (Some items))) :
  forall v, P v.
Proof.
  fix IH 1. intros [text|text|i|b|[items|]].
  - apply Hs.
  - apply He.
  - apply Hi.
  - apply Hb.
  - apply Ha. induction items as [|v items IHitems]; constructor.
    + apply IH.
    + exact IHitems.
  - apply Hn.
Qed.

Lemma plain_array (items : list Value) :
  plain (Array (Some items)) <-> Forall plain items.
Proof.
  cbn [plain]. induction items as [|v items IH].
  - split; [constructor|trivial].
  - rewrite Forall_cons. now rewrite <- IH.
Qed.

Lemma sized_array (items : list Value) :
  sized (Array (Some items)) <-> Forall sized items.
Proof.
  cbn [sized]. induction items as [|v items IH].
  - split; [constructor|trivial].
  - rewrite Forall_cons. now rewrite <- IH.
Qed.

Lemma depth_array (items : list Value) (v : Value) :
  v ∈ items -> (depth v < depth (Array (Some items)))%nat.
Proof.
  cbn [depth]. induction 1 as [v items|v w items _ IH]; cbn [foldr]; lia.
Qed.

Section Wire.
Context {T : Type}.
Implicit Types (parseReply : option (ParseReply T)) (rest : list byte).

Lemma readItems_wire (read : M (RedisReply T)) parseReply
    (items : list Value) :
  Forall (fun v => forall rest,
            read (wire v ++ rest) = Return (reply_of parseReply v) rest) items ->
  forall array rest,
    readItems read (length items) array (concat (map wire items) ++ rest)
    = Return (array ++ map (reply_of parseReply) items) rest.
Proof.
  induction 1 as [|v items Hv _ IH]; intros array rest.
  - cbn. now rewrite app_nil_r.
  - cbn [length readItems map concat]. unfold bind.
    rewrite <- app_assoc, Hv, IH. now rewrite <- app_assoc.
Qed.

Lemma readArrayReply_with_wire (read : M (RedisReply T)) parseReply
    (items : list Value) rest :
  Forall (fun v => forall rest,
            read (wire v ++ rest) = Return (reply_of parseReply v) rest) items ->
  readArrayReply_with read (wire (Array (Some items)) ++ rest)
  = Return (RArray (map (reply_of parseReply) items)) rest.
Proof.
  intros H. cbn [wire]. rewrite <- app_assoc.
  unfold readArrayReply_with, bind.
  rewrite readLine_line by (try apply String_of_nat_no_LF; discriminate).
  unfold parseSize. cbn [tail]. rewrite parseInt_nat.
  assert (forall k : M (RedisReply T),
    match Z.of_nat (length items) with
    | (-1)%Z => ret RNull
    | _ => k
    end = k) as E.
  { intros k. destruct (length items); [reflexivity|].
    cbn [Z.of_nat]. reflexivity. }
  rewrite E. cbn [iterations]. rewrite Nat2Z.id.
  now rewrite (readItems_wire read parseReply items H).
Qed.

(** A frame without error frames is read back as its value, whatever
    follows it on the stream. *)
Lemma readReply_wire parseReply (v : Value) :
  plain v -> sized v ->
  forall fuel rest, (depth v <= fuel)%nat ->
    readReply fuel parseReply (wire v ++ rest)
    = Return (reply_of parseReply v) rest.
Proof.
  induction v as [text|text|i|b| |items IH] using Value_ind';
    intros Hp Hs fuel rest Hfuel;
    (destruct fuel as [|fuel]; [cbn [depth] in Hfuel; lia|]).
  - apply readReply_simple. exact Hp.
  - destruct Hp.
  - apply readReply_integer.
  - destruct b as [b|]; [apply readReply_bulk; exact Hs|apply readReply_nil].
  - cbn [wire reply_of].
    change (line ArrayReplyCode (String_of_Z (-1)) ++ rest)
      with (ArrayReplyCode :: (String_of_Z (-1) ++ CRLF) ++ rest).
    rewrite readReply_S.
    change (ArrayReplyCode :: (String_of_Z (-1) ++ CRLF) ++ rest)
      with (line ArrayReplyCode (String_of_Z (-1)) ++ rest).
    cbn [Byte.eqb]. unfold readArrayReply_with, bind.
    rewrite readLine_line by (try apply String_of_Z_no_LF; discriminate).
    unfold parseSize. cbn [tail]. now rewrite parseInt_Z.
  - cbn [reply_of].
    assert (wire (Array (Some items)) ++ rest
            = ArrayReplyCode :: tail (wire (Array (Some items)) ++ rest)) as E
      by reflexivity.
    rewrite E, readReply_S, <- E. clear E.
    change (Byte.eqb ArrayReplyCode ErrorReplyCode) with false.
    change (Byte.eqb ArrayReplyCode IntegerReplyCode) with false.
    change (Byte.eqb ArrayReplyCode SimpleStringCode) with false.
    change (Byte.eqb ArrayReplyCode BulkReplyCode) with false.
    change (Byte.eqb ArrayReplyCode ArrayReplyCode) with true.
    cbv iota.
    apply readArrayReply_with_wire.
    apply plain_array in Hp. apply sized_array in Hs.
    rewrite Forall_forall in *. intros v Hv rest'.
    apply IH; auto.
    pose proof (depth_array items v Hv). lia.
Qed.

End Wire.

End RespFacts.

(** ** Error frames *)

Module ErrorFacts.
Import Js Reply JsFacts ReplyFacts.

Lemma observed_suffix (r0 r : BufReader) msg r' :
  r0 `suffix_of` r -> observed r0 msg r' -> observed r msg r'.
Proof.
  intros Hs (at_frame & line & H1 & H2 & H3 & H4).
  exists at_frame, line. repeat split; try assumption.
  now transitivity r0.
Qed.

Lemma BufReader_readLine_inv (reader : BufReader) line reader' :
  BufReader_readLine reader = Some (line, reader') ->
  (exists l, reader = l ++ LF :: reader' /\ line = strip_CR l)
  \/ (reader = line /\ reader' = [] /\ line <> []).
Proof.
  unfold BufReader_readLine. destruct reader as [|b reader]; [discriminate|].
  destruct (split_LF (b :: reader)) as [[l rest]|] eqn:E.
  - intros [= <- <-]. apply split_LF_Some in E as [E _].
    left. now exists l.
  - intros [= <- <-]. right. repeat split. discriminate.
Qed.

Lemma BufReader_readLine_suffix (reader : BufReader) line reader' :
  BufReader_readLine reader = Some (line, reader') ->
  reader' `suffix_of` reader /\ (length reader' < length reader)%nat.
Proof.
  intros H. apply BufReader_readLine_inv in H as [(l & -> & _)|(-> & -> & Hne)].
  - split.
    + exists (l ++ [LF]). now rewrite <- app_assoc.
    + rewrite length_app. cbn [length]. lia.
  - split; [apply suffix_nil|]. destruct line; [congruence|cbn; lia].
Qed.

Lemma BufReader_readLine_head (reader : BufReader) line reader' c :
  BufReader_readLine reader = Some (line, reader') ->
  head line = Some c -> peek1 reader = Some c.
Proof.
  intros H Hc. apply BufReader_readLine_inv in H as [(l & -> & ->)|(-> & -> & Hne)].
  - destruct (strip_CR_prefix l) as [k Hk].
    destruct (strip_CR l) as [|c' s]; [discriminate|].
    cbn in Hc. injection Hc as ->. rewrite Hk. reflexivity.
  - exact Hc.
Qed.

Lemma ok_from_suffix {A} (r1 r0 : BufReader) (o : Outcome A) :
  r1 `suffix_of` r0 -> ok_from r1 o -> ok_from r0 o.
Proof.
  intros Hs. destruct o as [a r'|e r'|]; cbn; [| |trivial].
  - intros H. now transitivity r1.
  - destruct e; try (intros H; now transitivity r1).
    intros [Ho H]. split; [|now transitivity r1].
    now apply (observed_suffix r1).
Qed.

Lemma ok_from_bind {A B} (m : M A) (k : A -> M B) reader :
  ok_from reader (m reader) ->
  (forall a reader', m reader = Return a reader' ->
     ok_from reader (k a reader')) ->
  ok_from reader (bind m k reader).
Proof.
  intros Hm Hk. unfold bind.
  destruct (m reader) as [a r1|e r1|]; [|exact Hm|exact I].
  now apply Hk.
Qed.

Lemma sound_bind {A B} (m : M A) (k : A -> M B) :
  sound m -> (forall a, sound (k a)) -> sound (bind m k).
Proof.
  intros Hm Hk reader. apply ok_from_bind; [apply Hm|].
  intros a reader' E. apply (ok_from_suffix reader'); [|apply Hk].
  specialize (Hm reader). now rewrite E in Hm.
Qed.

Lemma sound_ret {A} (a : A) : sound (ret a).
Proof. intros reader. cbn. reflexivity. Qed.

Lemma sound_readLine : sound readLine.
Proof.
  intros reader. unfold readLine.
  destruct (BufReader_readLine reader) as [[line reader']|] eqn:E;
    [|cbn; reflexivity].
  now apply BufReader_readLine_suffix in E as [Hs _].
Qed.

Lemma readLine_Return (reader : BufReader) line reader' :
  readLine reader = Return line reader' ->
  BufReader_readLine reader = Some (line, reader').
Proof.
  unfold readLine.
  destruct (BufReader_readLine reader) as [[l r]|]; [|discriminate].
  now intros [= -> ->].
Qed.

Lemma tryParseErrorReply_inv line msg :
  tryParseErrorReply line = ErrorReplyError msg ->
  head line = Some ErrorReplyCode /\ msg = decode line.
Proof.
  unfold tryParseErrorReply. destruct line as [|c line]; [discriminate|].
  destruct (Byte.eqb c ErrorReplyCode) eqn:E; [|discriminate].
  apply Byte.byte_dec_bl in E. subst c. now intros [= <-].
Qed.

Lemma ok_from_throw_parse {A} (line : Uint8Array) reader reader' :
  readLine reader = Return line reader' ->
  ok_from reader (@throw A (tryParseErrorReply line) reader').
Proof.
  intros E. apply readLine_Return in E.
  pose proof (BufReader_readLine_suffix _ _ _ E) as [Hs _].
  unfold throw. cbn.
  destruct (tryParseErrorReply line) eqn:Ep; try exact Hs.
  split; [|exact Hs].
  apply tryParseErrorReply_inv in Ep as [Hh ->].
  exists reader, line. repeat split; try reflexivity; try assumption.
  now apply (BufReader_readLine_head _ _ _ _ E).
Qed.

Lemma ok_from_Return {A} (a : A) reader reader' :
  reader' `suffix_of` reader -> ok_from reader (Return a reader').
Proof. trivial. Qed.

Lemma readLine_Return_suffix (reader : BufReader) line reader' :
  readLine reader = Return line reader' -> reader' `suffix_of` reader.
Proof.
  intros E. apply readLine_Return in E.
  now apply BufReader_readLine_suffix in E.
Qed.

Section Sound.
Context {T : Type}.
Implicit Types (parseReply : option (ParseReply T)).

Lemma sound_tryReadErrorReply {A} : sound (@tryReadErrorReply A).
Proof.
  intros reader. unfold tryReadErrorReply.
  apply ok_from_bind; [apply sound_readLine|].
  intros line reader' E. now apply ok_from_throw_parse.
Qed.

Lemma sound_readIntegerReply parseReply :
  sound (readIntegerReply parseReply).
Proof.
  unfold readIntegerReply. apply sound_bind; [apply sound_readLine|].
  intros line. apply sound_ret.
Qed.

Lemma sound_readSimpleStringReply parseReply :
  sound (readSimpleStringReply parseReply).
Proof.
  intros reader. unfold readSimpleStringReply.
  apply ok_from_bind; [apply sound_readLine|].
  intros line reader' E.
  destruct (head line) as [c|]; [|now apply ok_from_throw_parse].
  destruct (Byte.eqb c SimpleStringCode); [|now apply ok_from_throw_parse].
  apply ok_from_Return. now apply readLine_Return_suffix in E.
Qed.

Lemma BufReader_readFull_suffix n reader dest reader' :
  BufReader_readFull n reader = Filled dest reader' ->
  reader' `suffix_of` reader.
Proof.
  unfold BufReader_readFull. destruct n as [|n].
  - now intros [= <- <-].
  - destruct reader as [|b reader]; [discriminate|].
    destruct (S n <=? length (b :: reader))%nat; [|discriminate].
    intros H. inversion H; subst. apply (suffix_drop (b :: reader) (S n)).
Qed.

Lemma sound_readDest (size : JsNumber) : sound (readDest size).
Proof.
  intros reader. unfold readDest. destruct size as [|z]; [cbn; reflexivity|].
  destruct (2 ^ 53 - 1 <? z + 2)%Z; [cbn; reflexivity|].
  destruct (BufReader_readFull _ reader) as [dest reader'| |] eqn:E.
  - cbn. now apply BufReader_readFull_suffix in E.
  - cbn. reflexivity.
  - cbn. apply suffix_nil.
Qed.

Lemma sound_readBulkReply parseReply : sound (readBulkReply parseReply).
Proof.
  intros reader. unfold readBulkReply.
  apply ok_from_bind; [apply sound_readLine|].
  intros line reader' E.
  destruct (head line) as [c|]; [|now apply ok_from_throw_parse].
  destruct (Byte.eqb c BulkReplyCode); [|now apply ok_from_throw_parse].
  apply (ok_from_suffix reader'); [now apply readLine_Return_suffix in E|].
  destruct (is_negative (parseSize line)); [apply sound_ret|].
  apply sound_bind; [apply sound_readDest|]. intros dest. apply sound_ret.
Qed.

Lemma sound_readItems (read : M (RedisReply T)) (n : nat) :
  sound read -> forall array, sound (readItems read n array).
Proof.
  intros Hr. induction n as [|n IH]; intros array; cbn [readItems].
  - apply sound_ret.
  - apply sound_bind; [exact Hr|]. intros item. apply IH.
Qed.

Lemma sound_readArrayReply_with (read : M (RedisReply T)) :
  sound read -> sound (readArrayReply_with read).
Proof.
  intros Hr. unfold readArrayReply_with.
  apply sound_bind; [apply sound_readLine|]. intros line.
  assert (sound (await array <- readItems read (iterations (parseSize line)) [];
                 ret (RArray array))) as H.
  { apply sound_bind; [now apply sound_readItems|]. intros a. apply sound_ret. }
  destruct (parseSize line) as [|[|p|[p|p|]]]; first [exact H|apply sound_ret].
Qed.

Lemma sound_readReply fuel parseReply : sound (readReply fuel parseReply).
Proof.
  induction fuel as [|fuel IH]; intros reader; [exact I|].
  destruct reader as [|c reader]; [cbn; reflexivity|].
  rewrite readReply_S.
  destruct (Byte.eqb c ErrorReplyCode); [apply sound_tryReadErrorReply|].
  destruct (Byte.eqb c IntegerReplyCode); [apply sound_readIntegerReply|].
  destruct (Byte.eqb c SimpleStringCode); [apply sound_readSimpleStringReply|].
  destruct (Byte.eqb c BulkReplyCode); [apply sound_readBulkReply|].
  destruct (Byte.eqb c ArrayReplyCode);
    [now apply sound_readArrayReply_with|].
  cbn. reflexivity.
Qed.

End Sound.

Import Resp.
Local Open Scope nat_scope.



End ErrorFacts.

(** ** The reader is total *)

Module FuelFacts.
Import Js Reply Resp JsFacts ReplyFacts RespFacts ErrorFacts.

Section Fuel.
Context {T : Type}.
Implicit Types (parseReply : option (ParseReply T)).

Lemma bind_fuel {A B} (m : M A) (k : A -> M B) reader :
  m reader <> OutOfFuel ->
  (forall a reader', m reader = Return a reader' -> k a reader' <> OutOfFuel) ->
  bind m k reader <> OutOfFuel.
Proof.
  intros Hm Hk. unfold bind.
  destruct (m reader) as [a r|e r|]; [now apply Hk|discriminate|congruence].
Qed.

Lemma readLine_fuel reader : readLine reader <> OutOfFuel.
Proof.
  unfold readLine. now destruct (BufReader_readLine reader) as [[l r]|].
Qed.

Lemma readDest_fuel size reader : readDest size reader <> OutOfFuel.
Proof.
  unfold readDest. destruct size as [|z]; [discriminate|].
  destruct (2 ^ 53 - 1 <? z + 2)%Z; [discriminate|].
  now destruct (BufReader_readFull _ reader).
Qed.

Lemma readItems_fuel (read : M (RedisReply T)) (bound : nat) :
  sound read ->
  (forall r, (length r <= bound)%nat -> read r <> OutOfFuel) ->
  forall n array r, (length r <= bound)%nat ->
    readItems read n array r <> OutOfFuel.
Proof.
  intros Hs Hr. induction n as [|n IH]; intros array r Hlen; cbn [readItems].
  - discriminate.
  - apply bind_fuel; [now apply Hr|].
    intros item r' E. apply IH.
    specialize (Hs r). rewrite E in Hs. cbn in Hs.
    apply suffix_length in Hs. lia.
Qed.

Lemma readReply_fuel fuel parseReply reader :
  (length reader < fuel)%nat ->
  readReply fuel parseReply reader <> OutOfFuel.
Proof.
  revert reader. induction fuel as [|fuel IH]; intros reader Hlen; [lia|].
  destruct reader as [|c reader]; [discriminate|].
  rewrite readReply_S.
  destruct (Byte.eqb c ErrorReplyCode).
  { unfold tryReadErrorReply. apply bind_fuel; [apply readLine_fuel|].
    discriminate. }
  destruct (Byte.eqb c IntegerReplyCode).
  { unfold readIntegerReply. apply bind_fuel; [apply readLine_fuel|].
    discriminate. }
  destruct (Byte.eqb c SimpleStringCode).
  { unfold readSimpleStringReply. apply bind_fuel; [apply readLine_fuel|].
    intros line r' _. destruct (head line) as [c'|]; [|discriminate].
    now destruct (Byte.eqb c' SimpleStringCode). }
  destruct (Byte.eqb c BulkReplyCode).
  { unfold readBulkReply. apply bind_fuel; [apply readLine_fuel|].
    intros line r' _. destruct (head line) as [c'|]; [|discriminate].
    destruct (Byte.eqb c' BulkReplyCode); [|discriminate].
    destruct (is_negative (parseSize line)); [discriminate|].
    apply bind_fuel; [apply readDest_fuel|discriminate]. }
  destruct (Byte.eqb c ArrayReplyCode); [|discriminate].
  unfold readArrayReply_with. apply bind_fuel; [apply readLine_fuel|].
  intros line r' E. apply readLine_Return in E.
  apply BufReader_readLine_suffix in E as [_ Hshort].
  assert (bind (readItems (readReply fuel parseReply)
                  (iterations (parseSize line)) [])
            (fun array => ret (RArray array)) r' <> OutOfFuel) as H.
  { apply bind_fuel; [|discriminate].
    apply (readItems_fuel _ (length r')); [apply sound_readReply| |lia].
    intros r Hr. apply IH. cbn [length] in *. lia. }
  destruct (parseSize line) as [|[|p|[p|p|]]]; first [exact H|discriminate].
Qed.

(** The reader is total: the bound on the nesting it runs with is never
    reached. *)
Lemma run_readReply_total parseReply reader :
  run_readReply parseReply reader <> OutOfFuel.
Proof. apply readReply_fuel. lia. Qed.

Lemma readItems_agree (read1 read2 : M (RedisReply T)) (bound : nat) :
  sound read1 ->
  (forall r, (length r <= bound)%nat -> read1 r = read2 r) ->
  forall n array r, (length r <= bound)%nat ->
    readItems read1 n array r = readItems read2 n array r.
Proof.
  intros Hs Hr. induction n as [|n IH]; intros array r Hlen; cbn [readItems].
  - reflexivity.
  - unfold bind. rewrite <- (Hr r Hlen).
    pose proof (Hs r) as Hok.
    destruct (read1 r) as [item r'|e r'|]; try reflexivity.
    apply IH. cbn in Hok. apply suffix_length in Hok. lia.
Qed.

(** With fuel beyond the length of the stream the result does not
    depend on the fuel. *)
Lemma readReply_fuel_irrelevant fuel1 : forall fuel2 parseReply reader,
  (length reader < fuel1)%nat -> (length reader < fuel2)%nat ->
  readReply fuel1 parseReply reader = readReply fuel2 parseReply reader.
Proof.
  induction fuel1 as [|fuel1 IH]; intros fuel2 parseReply reader H1 H2; [lia|].
  destruct fuel2 as [|fuel2]; [lia|].
  destruct reader as [|c reader]; [reflexivity|].
  rewrite !readReply_S.
  destruct (Byte.eqb c ErrorReplyCode); [reflexivity|].
  destruct (Byte.eqb c IntegerReplyCode); [reflexivity|].
  destruct (Byte.eqb c SimpleStringCode); [reflexivity|].
  destruct (Byte.eqb c BulkReplyCode); [reflexivity|].
  destruct (Byte.eqb c ArrayReplyCode); [|reflexivity].
  unfold readArrayReply_with, bind.
  destruct (readLine (c :: reader)) as [line r'|e r'|] eqn:E; try reflexivity.
  apply readLine_Return in E.
  apply BufReader_readLine_suffix in E as [_ Hshort].
  assert (forall n array,
            readItems (readReply fuel1 parseReply) n array r'
            = readItems (readReply fuel2 parseReply) n array r') as Hitems.
  { intros n array.
    apply (readItems_agree _ _ (length r')); [apply sound_readReply| |lia].
    intros r Hr. apply IH; cbn [length] in *; lia. }
  destruct (parseSize line) as [|[|p|[p|p|]]]; cbn [iterations];
    rewrite ?Hitems; reflexivity.
Qed.

Lemma run_readReply_fuel fuel parseReply reader :
  (length reader < fuel)%nat ->
  readReply fuel parseReply reader = run_readReply parseReply reader.
Proof.
  intros H. unfold run_readReply. apply readReply_fuel_irrelevant; lia.
Qed.

End Fuel.

Lemma length_line code text : length (line code text) = (length text + 3)%nat.
Proof. unfold line, CRLF. cbn [length]. rewrite length_app. cbn. lia. Qed.

Lemma depth_le_wire (v : Value) : (depth v <= length (wire v))%nat.
Proof.
  induction v as [text|text|i|b| |items IH] using Value_ind';
    cbn [depth wire]; rewrite ?length_line; try lia.
  - destruct b; [unfold bulk; rewrite length_app|]; rewrite length_line; lia.
  - rewrite length_app, length_line.
    enough (foldr (fun v d => Nat.max (depth v) d) O items
            <= length (concat (map wire items)))%nat by lia.
    induction IH as [|v items Hv _ IHitems]; cbn [foldr map concat]; [lia|].
    rewrite length_app. lia.
Qed.

End FuelFacts.

(** ** Requests and batches of replies *)

Module CommandFacts.
Import Js Reply Resp Command JsFacts ReplyFacts RespFacts ErrorFacts FuelFacts.

Lemma encodeCommand_wire command args :
  encodeCommand command args = wire (request command args).
Proof.
  unfold encodeCommand, request. cbn [wire map concat length].
  rewrite !length_map. f_equal. f_equal.
  induction args as [|a args IH]; cbn [map concat]; [reflexivity|].
  now rewrite IH.
Qed.

Section Replies.
Context {T : Type}.

Lemma run_readReply_frame (parseReply : option (ParseReply T)) (v : Value) rest :
  frame v ->
  run_readReply parseReply (wire v ++ rest)
  = match v with
    | Error text => Throw (ErrorReplyError (decode (ErrorReplyCode :: text))) rest
    | _ => Return (reply_of parseReply v) rest
    end.
Proof.
  intros Hv. unfold run_readReply.
  assert (forall v', plain v' -> sized v' ->
            readReply (S (length (wire v' ++ rest))) parseReply (wire v' ++ rest)
            = Return (reply_of parseReply v') rest) as H.
  { intros v' Hp Hs. apply readReply_wire; [assumption..|].
    pose proof (depth_le_wire v'). rewrite length_app. lia. }
  destruct v as [text|text|i|b|items]; try (destruct Hv; now apply H).
  apply readReply_error. exact Hv.
Qed.

Lemma readReplies_frames (commands : list (CommandRecord T))
    (frames : list Value) :
  length commands = length frames -> Forall frame frames ->
  forall ret rest,
    readReplies commands ret (concat (map wire frames) ++ rest)
    = Return (ret ++ zip_with (fun c v => result_of (parseReply c) v)
                       commands frames) rest.
Proof.
  revert frames. induction commands as [|c commands IH];
    intros [|v frames] Hlen Hf ret rest; try discriminate.
  - cbn. now rewrite app_nil_r.
  - injection Hlen as Hlen. apply Forall_cons in Hf as [Hv Hf].
    cbn [readReplies map concat zip_with]. rewrite <- app_assoc.
    rewrite run_readReply_frame by exact Hv.
    destruct v; cbn [result_of]; rewrite IH by assumption;
      now rewrite <- app_assoc.
Qed.


Lemma length_results (commands : list (CommandRecord T)) (frames : list Value) :
  length commands = length frames ->
  length (zip_with (fun c v => result_of (parseReply c) v) commands frames)
  = length commands.
Proof. intros H. rewrite length_zip_with. lia. Qed.

End Replies.

Local Open Scope nat_scope.

Lemma reply_of_request {T} (parseReply : option (ParseReply T)) command args :
  reply_of parseReply (request command args)
  = RArray (map (terminal parseReply) (encode command :: map toBytes args)).
Proof.
  unfold request. cbn [reply_of]. rewrite map_map. reflexivity.
Qed.

Lemma request_frame command args :
  allocatable (encode command) ->
  Forall (fun a => allocatable (toBytes a)) args ->
  plain (request command args) /\ sized (request command args).
Proof.
  intros Hc Ha. unfold request. rewrite plain_array, sized_array.
  rewrite !Forall_map. split.
  - apply Forall_true. intros b. exact I.
  - change (Forall allocatable (encode command :: map toBytes args)).
    constructor; [exact Hc|]. now rewrite Forall_map.
Qed.

(** C1.  The frame of a request is [*k\r\n] (k = 1 + the number of
    arguments) followed by one length-prefixed bulk string for the
    command name and for each argument, in this order; read back by
    [readReply] it is the array of the same byte strings, whatever
    [parseReply] is applied to them (the bytes themselves with the
    identity); and [encodeCommand("SET", ["name", "bar"])] is the frame
    of the test. *)
Theorem encodeCommand_roundtrip (command : JsString)
    (args : list RedisValue) (rest : list byte) :
  allocatable (encode command) ->
  Forall (fun a => allocatable (toBytes a)) args ->
  encodeCommand command args
  = line ArrayReplyCode (String_of_nat (1 + length args))
      ++ concat (map bulk (encode command :: map toBytes args))
  /\ (forall T (parseReply : option (ParseReply T)),
        run_readReply parseReply (encodeCommand command args ++ rest)
        = Return (RArray (map (terminal parseReply)
                            (encode command :: map toBytes args))) rest)
  /\ run_readReply (Some (fun raw : Uint8Array => raw))
       (encodeCommand command args ++ rest)
     = Return (RArray (map RParsed (encode command :: map toBytes args))) rest
  /\ encodeCommand (str "SET") [VString (str "name"); VString (str "bar")]
     = bytes "*3" ++ CRLF ++ bytes "$3" ++ CRLF ++ bytes "SET" ++ CRLF
         ++ bytes "$4" ++ CRLF ++ bytes "name" ++ CRLF
         ++ bytes "$3" ++ CRLF ++ bytes "bar" ++ CRLF.
Proof.
  intros Hc Ha.
  assert (forall T (parseReply : option (ParseReply T)),
            run_readReply parseReply (encodeCommand command args ++ rest)
            = Return (RArray (map (terminal parseReply)
                                (encode command :: map toBytes args))) rest)
    as Hread.
  { intros T parseReply. rewrite encodeCommand_wire.
    destruct (request_frame command args Hc Ha) as [Hp Hs].
    rewrite (run_readReply_frame parseReply (request command args) rest)
      by (split; assumption).
    unfold request at 1. now rewrite reply_of_request. }
  split; [|split; [|split]].
  - unfold encodeCommand. cbn [map concat]. now rewrite map_map.
  - exact Hread.
  - apply (Hread Uint8Array (Some (fun raw => raw))).
  - vm_compute. reflexivity.
Qed.

Lemma encodeCommand_roundtrip_witness :
  allocatable (encode (str "SET"))
  /\ Forall (fun a => allocatable (toBytes a))
       [VString (str "name"); VString (str "bar")]
  /\ run_readReply (Some (fun raw : Uint8Array => raw))
       (encodeCommand (str "SET") [VString (str "name"); VString (str "bar")]
          ++ [])
     = Return (RArray [RParsed (bytes "SET"); RParsed (bytes "name");
                       RParsed (bytes "bar")]) [].
Proof.
  assert (forall b : Uint8Array, length b <= 4 -> allocatable b) as Hsmall.
  { intros b Hb. unfold allocatable. lia. }
  assert (allocatable (encode (str "SET"))) as Hc.
  { apply Hsmall. vm_compute. lia. }
  assert (Forall (fun a => allocatable (toBytes a))
            [VString (str "name"); VString (str "bar")]) as Ha.
  { repeat constructor; apply Hsmall; vm_compute; lia. }
  split; [exact Hc|]. split; [exact Ha|].
  exact (proj1 (proj2 (proj2
    (encodeCommand_roundtrip (str "SET")
       [VString (str "name"); VString (str "bar")] [] Hc Ha)))).
Defined.

End CommandFacts.

(** ** The pipeline executor: its invariant *)

Module PipelineFacts.
Import Js Reply Resp Command Pipeline.
Import JsFacts ReplyFacts RespFacts ErrorFacts FuelFacts CommandFacts.
Local Open Scope nat_scope.

Section Invariant.
Context {T : Type}.
Variable kEmptyRedisArgs : list RedisValue.
Implicit Types (rt : Runtime T) (hist : list (QueueEntry T)) (ev : Event T).

Local Abbreviation step := (step kEmptyRedisArgs).
Local Abbreviation run := (run kEmptyRedisArgs).


Lemma phase_cases rt :
  phase rt ->
  (running rt = [] /\ finally_due rt = 0 /\ queue (executor rt) = [])
  \/ (exists e q, running rt = [e] /\ finally_due rt = 0
                  /\ queue (executor rt) = e :: q)
  \/ (exists e q, running rt = [] /\ finally_due rt = 1
                  /\ queue (executor rt) = e :: q).
Proof.
  unfold phase.
  destruct (running rt) as [|e [|e' r]], (finally_due rt) as [|[|n]];
    try contradiction.
  - intros ->. now left.
  - destruct (queue (executor rt)) as [|e q]; [congruence|].
    intros _. right. right. now exists e, q.
  - destruct (queue (executor rt)) as [|e0 q]; [discriminate|].
    intros [= ->]. right. left. now exists e, q.
Qed.

Lemma Inv_flush w0 rt hist :
  Inv w0 rt hist -> Inv w0 (fst (flush rt)) (hist ++ created rt CallFlush).
Proof.
  intros [Hh Hi Hp Hw]. apply phase_cases in Hp.
  destruct rt as [[conn tx cmds q] r due st next].
  unfold flush, created, wrap, waiting, dequeue, with_executor, with_queue,
    with_commands in *.
  cbn [executor running finally_due settled next_deferred connection
       Pipeline.tx commands queue fst] in *.
  assert (map e_d (hist ++ [{| e_commands := if tx then MULTI :: cmds ++ [EXEC] else cmds;
                               e_d := next |}]) = seq 0 (S next)) as Hi'.
  { rewrite map_app, Hi, seq_S. reflexivity. }
  destruct Hp as [(-> & -> & ->)|[(e & q' & -> & -> & ->)|(e & q' & -> & -> & ->)]];
    destruct tx;
    cbn [executor running finally_due settled next_deferred connection
         Pipeline.tx commands queue fst app length Nat.eqb tail] in *;
    subst hist;
    rewrite ?length_app, ?Nat.add_1_r;
    cbn [executor running finally_due settled next_deferred connection
         Pipeline.tx commands queue fst app length Nat.eqb tail];
    (split;
     [ unfold waiting;
       cbn [executor running finally_due settled next_deferred queue tail];
       rewrite <- ?app_assoc; reflexivity
     | exact Hi'
     | unfold phase;
       cbn [executor running finally_due settled next_deferred queue head];
       first [reflexivity|discriminate]
     | exact Hw ]).
Qed.

Lemma sendCommands_writer (w : BufWriter) (r : BufReader)
    (cmds : list (CommandRecord T)) :
  fst (sendCommands w r cmds) = w ++ encodeBatch cmds.
Proof. reflexivity. Qed.

Lemma Inv_settle w0 rt hist i :
  Inv w0 rt hist -> Inv w0 (settle rt i) hist.
Proof.
  intros [Hh Hi Hp Hw]. pose proof Hp as Hp'. apply phase_cases in Hp'.
  unfold settle.
  destruct Hp' as [(Hr & Hd & Hq)|[(e & q' & Hr & Hd & Hq)|(e & q' & Hr & Hd & Hq)]];
    rewrite Hr; try (rewrite lookup_nil; now split).
  destruct i as [|i]; [|cbn; now split].
  cbn [lookup list_lookup].
  unfold sendCommands.
  destruct (readReplies (e_commands e) [] _) as [v r'|err r'|];
    [| |now split].
  all: split; cbn;
    [ unfold waiting in *; cbn; rewrite Hd in Hh; rewrite Hq in *; cbn;
      rewrite map_app; cbn; rewrite <- app_assoc; exact Hh
    | exact Hi
    | unfold phase; cbn; rewrite Hd, Hq; discriminate
    | rewrite map_app, map_app, concat_app; cbn; rewrite app_nil_r, app_assoc;
      now rewrite <- Hw ].
Qed.

Lemma Inv_finally w0 rt hist :
  Inv w0 rt hist -> Inv w0 (finally rt) hist.
Proof.
  intros [Hh Hi Hp Hw]. pose proof Hp as Hp'. apply phase_cases in Hp'.
  unfold finally.
  destruct Hp' as [(Hr & Hd & Hq)|[(e & q' & Hr & Hd & Hq)|(e & q' & Hr & Hd & Hq)]];
    rewrite Hd; try (now split).
  unfold dequeue. cbn. rewrite Hq. cbn.
  unfold waiting in Hh. rewrite Hd, Hq in Hh. cbn in Hh.
  destruct q' as [|e2 q2]; split; cbn; try assumption;
    try (unfold waiting; cbn; rewrite ?Hq; exact Hh);
    unfold phase; cbn; rewrite Hr; reflexivity.
Qed.

Lemma Inv_step w0 rt hist ev :
  Inv w0 rt hist -> Inv w0 (step rt ev) (hist ++ created rt ev).
Proof.
  intros H. destruct ev as [c a o| |i| |data]; cbn [step].
  - cbn [created]. rewrite app_nil_r. destruct H as [Hh Hi Hp Hw].
    split; assumption.
  - now apply Inv_flush.
  - cbn [created]. rewrite app_nil_r. now apply Inv_settle.
  - cbn [created]. rewrite app_nil_r. now apply Inv_finally.
  - cbn [created]. rewrite app_nil_r. destruct H as [Hh Hi Hp Hw].
    split; assumption.
Qed.

Lemma settle_executor rt i :
  tx (executor (settle rt i)) = tx (executor rt)
  /\ commands (executor (settle rt i)) = commands (executor rt)
  /\ next_deferred (settle rt i) = next_deferred rt.
Proof.
  unfold settle. destruct (running rt !! i) as [e|]; [|auto].
  cbn. destruct (readReplies _ _ _); auto.
Qed.

Lemma finally_executor rt :
  tx (executor (finally rt)) = tx (executor rt)
  /\ commands (executor (finally rt)) = commands (executor rt)
  /\ next_deferred (finally rt) = next_deferred rt.
Proof.
  unfold finally, dequeue. destruct (finally_due rt); [auto|].
  cbn. destruct (tail _); auto.
Qed.

Lemma flush_executor rt :
  tx (executor (fst (flush rt))) = tx (executor rt)
  /\ commands (executor (fst (flush rt))) = []
  /\ next_deferred (fst (flush rt)) = S (next_deferred rt).
Proof.
  destruct rt as [[conn tx cmds q] r due st next].
  unfold flush, dequeue. cbn.
  destruct tx; cbn; destruct (length _ =? 1); cbn; auto;
    destruct q; cbn; auto.
Qed.

(** The entries a run creates are the ones the specification asks
    for. *)
Lemma Inv_run w0 (events : list (Event T)) : forall rt hist,
  Inv w0 rt hist ->
  Inv w0 (run rt events)
    (hist ++ spec_entries (tx (executor rt)) (next_deferred rt)
               (spec_batches kEmptyRedisArgs (commands (executor rt)) events))
  /\ commands (executor (run rt events))
     = spec_pending kEmptyRedisArgs (commands (executor rt)) events
  /\ tx (executor (run rt events)) = tx (executor rt).
Proof.
  induction events as [|ev events IH]; intros rt hist H.
  - cbn. rewrite app_nil_r. auto.
  - change (run rt (ev :: events)) with (run (step rt ev) events).
    apply (Inv_step w0 rt hist ev) in H.
    specialize (IH _ _ H). clear H.
    destruct ev as [c a o| |i| |data]; cbn [created spec_batches spec_pending] in *.
    + rewrite app_nil_r in IH. exact IH.
    + destruct (flush_executor rt) as (Ht & Hc & Hn).
      cbn [step] in *. rewrite Ht, Hc, Hn in IH.
      cbn [spec_entries]. rewrite <- app_assoc in IH. exact IH.
    + destruct (settle_executor rt i) as (Ht & Hc & Hn).
      cbn [step] in *. rewrite Ht, Hc, Hn, app_nil_r in IH. exact IH.
    + destruct (finally_executor rt) as (Ht & Hc & Hn).
      cbn [step] in *. rewrite Ht, Hc, Hn, app_nil_r in IH. exact IH.
    + rewrite app_nil_r in IH. exact IH.
Qed.

Lemma Inv_start (conn : Connection) (tx : bool) :
  Inv (T:=T) (writer conn) (start conn tx) [].
Proof. split; cbn; try reflexivity. now rewrite app_nil_r. Qed.

Lemma spec_batches_partition (events : list (Event T)) : forall pending,
  concat (spec_batches kEmptyRedisArgs pending events)
    ++ spec_pending kEmptyRedisArgs pending events
  = pending ++ sent kEmptyRedisArgs events.
Proof.
  induction events as [|ev events IH]; intros pending.
  - cbn. now rewrite app_nil_r.
  - destruct ev; cbn [spec_batches spec_pending sent concat]; rewrite ?IH.
    + now rewrite <- app_assoc.
    + rewrite <- app_assoc. now rewrite IH.
    + reflexivity.
    + reflexivity.
    + reflexivity.
Qed.

Lemma spec_entries_ids tx (batches : list (list (CommandRecord T))) :
  forall d n e,
  spec_entries tx d batches !! n = Some e -> e_d e = d + n.
Proof.
  induction batches as [|b batches IH]; intros d n e; [discriminate|].
  destruct n as [|n]; cbn [spec_entries lookup list_lookup].
  - intros [= <-]. cbn. lia.
  - intros H. apply IH in H. lia.
Qed.



End Invariant.

End PipelineFacts.

(** ** The pipeline executor: batches and their replies *)

Module PipelineTheorems.
Import Js Reply Resp Command Pipeline.
Import JsFacts ReplyFacts RespFacts ErrorFacts FuelFacts CommandFacts PipelineFacts.
Local Open Scope nat_scope.

Section Batches.
Context {T : Type}.
Variable kEmptyRedisArgs : list RedisValue.

Local Abbreviation step := (step kEmptyRedisArgs).
Local Abbreviation run := (run kEmptyRedisArgs).
Local Abbreviation record_of := (record_of (T:=T) kEmptyRedisArgs).

Local Abbreviation Call := (Call T).
Local Abbreviation CallSend := (CallSend (T:=T)).
Local Abbreviation record := (record (T:=T) kEmptyRedisArgs).

Lemma run_app (rt : Runtime T) (a b : list (Event T)) :
  run rt (a ++ b) = run (run rt a) b.
Proof. apply fold_left_app. Qed.

Lemma run_calls (calls : list Call) : forall (rt : Runtime T),
  run rt (map CallSend calls)
  = with_executor rt
      (with_commands (executor rt)
         (commands (executor rt) ++ map record calls)).
Proof.
  induction calls as [|[[c a] o] calls IH]; intros rt.
  - cbn. rewrite app_nil_r. now destruct rt as [[? ? ? ?] ? ? ? ?].
  - cbn [map CallSend]. change (run rt (?e :: ?es)) with (run (step rt e) es).
    rewrite IH. destruct rt as [[? ? ? ?] ? ? ? ?]. cbn.
    unfold with_executor, with_commands. cbn. now rewrite <- app_assoc.
Qed.

Lemma flush_idle (conn : Connection) (tx : bool)
    (cmds : list (CommandRecord T)) st next :
  flush {| executor := {| connection := conn; Pipeline.tx := tx;
                          commands := cmds; queue := [] |};
           running := []; finally_due := 0; settled := st;
           next_deferred := next |}
  = ({| executor :=
          {| connection := conn; Pipeline.tx := tx; commands := [];
             queue := [{| e_commands := wrap tx cmds; e_d := next |}] |};
        running := [{| e_commands := wrap tx cmds; e_d := next |}];
        finally_due := 0; settled := st; next_deferred := S next |},
     OfDeferred next).
Proof. destruct tx; reflexivity. Qed.

Lemma settle_running (self : PipelineExecutor T) (e : QueueEntry T)
    due st next value reader' :
  readReplies (e_commands e) [] (reader (connection self))
  = Return value reader' ->
  settle {| executor := self; running := [e]; finally_due := due;
            settled := st; next_deferred := next |} 0
  = {| executor :=
         {| connection :=
              {| writer := writer (connection self)
                             ++ encodeBatch (e_commands e);
                 reader := reader' |};
            Pipeline.tx := Pipeline.tx self; commands := commands self;
            queue := queue self |};
       running := []; finally_due := S due;
       settled := st ++ [(e, Fulfilled value)]; next_deferred := next |}.
Proof.
  intros H. unfold settle, sendCommands.
  cbn [running lookup list_lookup executor]. now rewrite H.
Qed.

(** One batch from a fresh executor, with the replies of the server on
    the stream. *)
Lemma run_flush_settle (conn : Connection) (tx : bool) (calls : list Call)
    (frames : list Value) (rest : list byte) :
  let batch := wrap tx (map record calls) in
  let entry := {| e_commands := batch; e_d := 0 |} in
  reader conn = concat (map wire frames) ++ rest ->
  length batch = length frames ->
  Forall frame frames ->
  run (start conn tx) (map CallSend calls ++ [CallFlush; Settle 0])
  = {| executor :=
         {| connection := {| writer := writer conn ++ encodeBatch batch;
                             reader := rest |};
            Pipeline.tx := tx; commands := []; queue := [entry] |};
       running := []; finally_due := 1;
       settled := [(entry,
                    Fulfilled (zip_with (fun c v => result_of (parseReply c) v)
                                 batch frames))];
       next_deferred := 1 |}.
Proof.
  intros batch entry Hreader Hlen Hframes. subst batch entry.
  rewrite run_app, run_calls.
  unfold start, new_PipelineExecutor, with_executor, with_commands.
  cbn [executor running finally_due settled next_deferred connection
       Pipeline.tx commands queue app].
  cbn [Pipeline.run fold_left Pipeline.step].
  rewrite flush_idle. cbn [fst].
  erewrite settle_running; [reflexivity|].
  cbn [e_commands connection]. rewrite Hreader.
  now rewrite (readReplies_frames _ frames Hlen Hframes [] rest).
Qed.

Lemma lookup_map {A B} (f : A -> B) (l : list A) (n : nat) :
  map f l !! n = f <$> l !! n.
Proof.
  revert n. induction l as [|a l IH]; intros [|n]; cbn; auto.
Qed.









(** C3.  [sendCommand] returns a promise that is already resolved with
    the sentinel ["OK"]; it appends the record of the command to the
    pending commands and changes nothing else: not the connection, not
    the queue, nothing of the event loop.  The sentinel is what the
    caller gets also when the server answers the command with an error:
    the error is in the list of the later [flush]. *)
Theorem sendCommand_sentinel (self : PipelineExecutor T)
    (command : JsString) (args : option (list RedisValue))
    (options : option (SendCommandOptions T)) :
  let result := sendCommand kEmptyRedisArgs self command args options in
  snd result = Resolved okReply
  /\ okReply = str "OK"
  /\ commands (fst result)
     = commands self
         ++ [{| Command.command := command;
                Command.args := default kEmptyRedisArgs args;
                Command.parseReply := options ≫= opt_parseReply |}]
  /\ connection (fst result) = connection self
  /\ queue (fst result) = queue self
  /\ Pipeline.tx (fst result) = Pipeline.tx self
  /\ (forall rt : Runtime T,
        let rt' := step rt (CallSendCommand command args options) in
        running rt' = running rt /\ finally_due rt' = finally_due rt
        /\ settled rt' = settled rt /\ next_deferred rt' = next_deferred rt
        /\ connection (executor rt') = connection (executor rt)
        /\ queue (executor rt') = queue (executor rt))
  /\ (let conn := {| writer := [];
                     reader := wire (Error (bytes "ERR unknown command")) |} in
      let self0 := new_PipelineExecutor conn false in
      snd (sendCommand kEmptyRedisArgs self0 command args options)
      = Resolved okReply
      /\ map snd (settled (run (start conn false)
                             [CallSendCommand command args options;
                              CallFlush; Settle 0]))
         = [Fulfilled [ReplyError (str "-ERR unknown command")]]).
Proof.
  cbv zeta. split; [reflexivity|]. split; [reflexivity|].
  split; [reflexivity|]. split; [reflexivity|]. split; [reflexivity|].
  split; [reflexivity|]. split.
  - intros rt. cbn. auto 10.
  - split; [reflexivity|].
    pose proof (run_flush_settle
                  {| writer := [];
                     reader := wire (Error (bytes "ERR unknown command")) |}
                  false [(command, args, options)]
                  [Error (bytes "ERR unknown command")] []) as H.
    cbv zeta in H. cbn [map CallSend app] in H.
    rewrite H; [reflexivity| | |].
    + cbn [map concat reader]. now rewrite !app_nil_r.
    + reflexivity.
    + constructor; [|constructor]. cbn [frame].
      intros Hin. apply list_elem_of_In in Hin. cbn in Hin.
      repeat (destruct Hin as [Hin|Hin]; [discriminate Hin|]). exact Hin.
Qed.

(** C4.  Whatever the caller, the server and the event loop do, in any
    order: at most one batch of the executor is being written and read,
    and it is the head of the queue; the deferreds settle in the order
    of their flushes, the [n]-th to settle being the one of the [n]-th
    flush; the batches are written to the connection one after the
    other in this order; and the batch of the [n]-th flush is made of
    the commands sent between the flush before it and itself (between
    MULTI and EXEC in [tx] mode), every command sent being in one batch
    or still pending. *)
Theorem flush_serialized (conn : Connection) (tx : bool)
    (events : list (Event T)) :
  let rt := run (start conn tx) events in
  let batches := spec_batches kEmptyRedisArgs [] events in
  let entries := spec_entries tx 0 batches in
  length (running rt) <= 1
  /\ (forall e, e ∈ running rt -> head (queue (executor rt)) = Some e)
  /\ map fst (settled rt) ++ waiting rt = entries
  /\ (forall (n : nat) e s,
        settled rt !! n = Some (e, s) ->
        e_d e = n /\ entries !! n = Some e)
  /\ writer (connection (executor rt))
     = writer conn
         ++ concat (map (fun e => encodeBatch (e_commands e))
                      (map fst (settled rt)))
  /\ commands (executor rt) = spec_pending kEmptyRedisArgs [] events
  /\ concat batches ++ spec_pending kEmptyRedisArgs [] events
     = sent kEmptyRedisArgs events.
Proof.
  intros rt batches entries.
  destruct (Inv_run kEmptyRedisArgs (writer conn) events
              (start conn tx) [] (Inv_start conn tx))
    as ([Hh Hi Hp Hw] & Hc & _).
  cbn [app start executor new_PipelineExecutor Pipeline.tx commands
       next_deferred] in Hh, Hi, Hc.
  fold rt in Hh, Hi, Hp, Hw, Hc. fold batches in Hh, Hi. fold entries in Hh, Hi.
  apply phase_cases in Hp.
  split; [|split; [|split; [|split; [|split; [|split]]]]].
  - destruct Hp as [(-> & _)|[(e & q & -> & _)|(e & q & -> & _)]]; cbn; lia.
  - intros e He.
    destruct Hp as [(Hr & _)|[(e' & q & Hr & _ & Hq)|(e' & q & Hr & _)]];
      rewrite Hr in He.
    + now apply elem_of_nil in He.
    + apply list_elem_of_singleton in He as ->. now rewrite Hq.
    + now apply elem_of_nil in He.
  - exact Hh.
  - intros n e s Hn.
    assert (entries !! n = Some e) as He.
    { rewrite <- Hh. rewrite lookup_app_l.
      - rewrite lookup_map, Hn. reflexivity.
      - rewrite length_map. now apply lookup_lt_Some in Hn. }
    split; [|exact He].
    now apply spec_entries_ids in He.
  - exact Hw.
  - exact Hc.
  - apply (spec_batches_partition kEmptyRedisArgs events []).
Qed.

End Batches.

End PipelineTheorems.

(** ** The scenarios of the pipeline tests *)

Module PipelineExamples.
Import Js Reply Resp Command Pipeline.
Import PipelineTheorems.
Local Open Scope nat_scope.

Ltac no_LF :=
  let H := fresh "H" in
  intros H; apply list_elem_of_In in H; cbn in H;
  repeat (destruct H as [H|H]; [discriminate H|]); exact H.





Lemma flush_serialized_witness :
  settled (run [] (start (connection_with testConcurrent_frames) false)
             testConcurrent_events) !! 1
  = Some ({| e_commands := [record [] (call "GET" ["a"])]; e_d := 1 |},
          Fulfilled [Raw (RString (str "a"))])
  /\ e_d {| e_commands := [record (T:=unit) [] (call "GET" ["a"])]; e_d := 1 |}
     = 1
  /\ spec_entries false 0 (spec_batches [] [] testConcurrent_events) !! 1
     = Some {| e_commands := [record [] (call "GET" ["a"])]; e_d := 1 |}.
Proof.
  assert (settled (run [] (start (connection_with testConcurrent_frames) false)
                     testConcurrent_events) !! 1
          = Some ({| e_commands := [record [] (call "GET" ["a"])]; e_d := 1 |},
                  Fulfilled [Raw (RString (str "a"))])) as H
    by (vm_compute; reflexivity).
  split; [exact H|].
  exact (proj1 (proj2 (proj2 (proj2
    (flush_serialized [] (connection_with testConcurrent_frames) false
       testConcurrent_events)))) 1 _ _ H).
Defined.

End PipelineExamples.

(** ** stream.ts *)

Module StreamFacts.
Import Js Stream.
Local Open Scope nat_scope.

Lemma parseXMessage_loop (items : list JsString) :
  forall f, snd (fold_left (parseXMessage_body 0) items (f, ∅)) = ∅.
Proof.
  induction items as [|data items IH]; intros f; [reflexivity|].
  cbn [fold_left]. unfold parseXMessage_body at 2.
  change (0 mod 2 =? 0)%Z with true. cbv iota. apply IH.
Qed.

(** C10 (what the code does).  The counter [m] of [parseXMessage] is
    never incremented, so every item is taken for a field name and no
    pair is ever stored: the [field_values] of the result is empty
    whatever the input.  For [raw = ["1-0", ["name", "bar"]]] the map
    has no entry for ["name"], where the pairing of the flat list asks
    for the entry from ["name"] to ["bar"]. *)
Theorem parseXMessage_no_fields :
  (forall raw : JsString * list JsString,
     id (parseXMessage raw) = fst raw
     /\ field_values (parseXMessage raw) = ∅)
  /\ field_values (parseXMessage (str "1-0", [str "name"; str "bar"]))
       !! str "name" = None
  /\ spec_field_values ∅ [str "name"; str "bar"] !! str "name"
     = Some (str "bar").
Proof.
  split; [|split].
  - intros [i items]. unfold parseXMessage. cbn [fst snd].
    pose proof (parseXMessage_loop items None) as H.
    destruct (fold_left _ items _) as [f fv]. cbn in H. subst fv.
    split; reflexivity.
  - unfold parseXMessage. cbn [snd].
    pose proof (parseXMessage_loop [str "name"; str "bar"] None) as H.
    destruct (fold_left _ _ _) as [f fv]. cbn in H. subst fv.
    cbn [field_values]. apply lookup_empty.
  - cbn [spec_field_values]. apply lookup_insert_eq.
Qed.

End StreamFacts.

(** ** The cluster dispatcher *)

Module ClusterFacts.
Import Js Command Cluster.
Local Open Scope nat_scope.

Section Dispatcher.
Context {V : Type}.
Variable node_exec : Node -> list Cmd -> Cmd -> NodeReply V.

Local Abbreviation send := (send node_exec).
Local Abbreviation dispatch := (dispatch node_exec).

Lemma observed_send (d : Dispatcher) (node node' : Node) (cmd : Cmd) :
  observed (fst (send d node cmd)) node'
  = if decide (node = node') then observed d node ++ [cmd]
    else observed d node'.
Proof.
  unfold Cluster.send, observed. cbn [fst connections].
  rewrite lookup_insert. destruct (decide (node = node')); reflexivity.
Qed.

Lemma observed_send_prefix (d : Dispatcher) (node node' : Node) (cmd : Cmd) :
  observed d node' `prefix_of` observed (fst (send d node cmd)) node'.
Proof.
  rewrite observed_send. destruct (decide (node = node')) as [->|].
  - now apply prefix_app_r.
  - reflexivity.
Qed.

(** A connection never forgets a command it has observed. *)
Lemma dispatch_prefix (redirections : nat) :
  forall (d : Dispatcher) (target : Node) (asking : bool) (cmd : Cmd)
         (node : Node),
    observed d node
      `prefix_of` observed (fst (dispatch redirections d target asking cmd)) node.
Proof.
  induction redirections as [|r IH]; intros d target asking cmd node;
    cbn [Cluster.dispatch].
  - set (d0 := if asking then fst (send d target ASKING) else d).
    assert (observed d node `prefix_of` observed d0 node) as H0.
    { unfold d0. destruct asking; [apply observed_send_prefix|reflexivity]. }
    pose proof (observed_send_prefix d0 target node cmd) as H1.
    change (Cluster.send node_exec d0 target cmd)
      with (fst (send d0 target cmd), snd (send d0 target cmd)).
    destruct (snd (send d0 target cmd)); cbn [fst];
      now transitivity (observed d0 node).
  - set (d0 := if asking then fst (send d target ASKING) else d).
    assert (observed d node `prefix_of` observed d0 node) as H0.
    { unfold d0. destruct asking; [apply observed_send_prefix|reflexivity]. }
    pose proof (observed_send_prefix d0 target node cmd) as H1.
    change (Cluster.send node_exec d0 target cmd)
      with (fst (send d0 target cmd), snd (send d0 target cmd)).
    destruct (snd (send d0 target cmd)) as [v|slot t|slot t|text]; cbn [fst].
    + now transitivity (observed d0 node).
    + etransitivity; [|apply IH]. now transitivity (observed d0 node).
    + etransitivity; [|apply IH]. now transitivity (observed d0 node).
    + now transitivity (observed d0 node).
Qed.

(** C8.  When a node answers a command with [-ASK slot host:port] and
    a redirection is left, the dispatcher goes on at the target with
    the slot map as it was; the connection of the target observes
    ASKING and, next after it, the command; and when the target answers
    the command with a reply, this reply is the result, and the slot map
    at the end is the slot map of the beginning. *)
Theorem ask_redirection (redirections : nat) (d : Dispatcher)
    (origin : Node) (asking : bool) (cmd : Cmd) (slot : Z) (target : Node) :
  let d0 := if asking then fst (send d origin ASKING) else d in
  let d1 := fst (send d0 origin cmd) in
  let before := observed d1 target in
  node_exec origin (observed d0 origin) cmd = ASK slot target ->
  dispatch (S redirections) d origin asking cmd
  = dispatch redirections d1 target true cmd
  /\ slotMap d1 = slotMap d
  /\ (exists later,
        observed (fst (dispatch (S redirections) d origin asking cmd)) target
        = before ++ [ASKING; cmd] ++ later)
  /\ (forall v,
        node_exec target (before ++ [ASKING]) cmd = Value v ->
        snd (dispatch (S redirections) d origin asking cmd) = Reply v
        /\ slotMap (fst (dispatch (S redirections) d origin asking cmd))
           = slotMap d
        /\ observed (fst (dispatch (S redirections) d origin asking cmd)) target
           = before ++ [ASKING; cmd]).
Proof.
  intros d0 d1 before Hask.
  assert (dispatch (S redirections) d origin asking cmd
          = dispatch redirections d1 target true cmd) as Hstep.
  { cbn [Cluster.dispatch]. fold d0.
    change (Cluster.send node_exec d0 origin cmd)
      with (fst (send d0 origin cmd), node_exec origin (observed d0 origin) cmd).
    now rewrite Hask. }
  assert (slotMap d1 = slotMap d) as Hmap.
  { unfold d1, d0. destruct asking; reflexivity. }
  set (d2 := fst (send d1 target ASKING)).
  set (d3 := fst (send d2 target cmd)).
  assert (observed d2 target = before ++ [ASKING]) as H2.
  { unfold d2. rewrite observed_send. now rewrite decide_True. }
  assert (observed d3 target = before ++ [ASKING; cmd]) as H3.
  { unfold d3. rewrite observed_send, decide_True by reflexivity.
    rewrite H2, <- app_assoc. reflexivity. }
  assert (observed d3 target
            `prefix_of` observed (fst (dispatch redirections d1 target true cmd))
                          target) as Hpre.
  { destruct redirections as [|r]; cbn [Cluster.dispatch]; fold d2;
      change (Cluster.send node_exec d2 target cmd)
        with (d3, snd (send d2 target cmd));
      destruct (snd (send d2 target cmd)) as [v|sl t|sl t|text]; cbn [fst];
      try reflexivity;
      [ etransitivity; [|apply dispatch_prefix]; reflexivity
      | apply dispatch_prefix ]. }
  split; [exact Hstep|]. split; [exact Hmap|]. split.
  - rewrite Hstep. destruct Hpre as [later Hl]. exists later.
    rewrite Hl, H3. now rewrite <- app_assoc.
  - intros v Hv. rewrite Hstep.
    assert (dispatch redirections d1 target true cmd = (d3, Reply v)) as E.
    { destruct redirections as [|r]; cbn [Cluster.dispatch]; fold d2;
        change (Cluster.send node_exec d2 target cmd)
          with (d3, node_exec target (observed d2 target) cmd);
        now rewrite H2, Hv. }
    rewrite E. cbn [fst snd]. split; [reflexivity|]. split; [|exact H3].
    unfold d3, d2. cbn. exact Hmap.
Qed.

End Dispatcher.

Lemma ask_redirection_witness :
  ask_exec nodeA (observed fresh nodeA) get_hoge = ASK 866 nodeB
  /\ snd (dispatch ask_exec 1 fresh nodeA false get_hoge)
     = Reply (str "piyo")
  /\ slotMap (fst (dispatch ask_exec 1 fresh nodeA false get_hoge)) = ∅
  /\ observed (fst (dispatch ask_exec 1 fresh nodeA false get_hoge)) nodeB
     = [] ++ [ASKING; get_hoge].
Proof.
  assert (ask_exec nodeA (observed fresh nodeA) get_hoge = ASK 866 nodeB)
    as Hask by reflexivity.
  split; [exact Hask|].
  pose proof (ask_redirection ask_exec 0 fresh nodeA false get_hoge 866
                nodeB Hask) as (_ & _ & _ & H).
  assert (observed (fst (send ask_exec fresh nodeA get_hoge)) nodeB = [])
    as Hb by (vm_compute; reflexivity).
  cbv zeta in H. rewrite Hb in H.
  exact (H (str "piyo") eq_refl).
Defined.

End ClusterFacts.

(** ** Subscriptions *)

Module PubSubFacts.
Import Js PubSub.
Local Open Scope nat_scope.

Lemma deliver_shorter (inbox : list Push) :
  length (snd (deliver inbox)) <= length inbox
  /\ (forall m, fst (deliver inbox) = Some m ->
        length (snd (deliver inbox)) < length inbox).
Proof.
  induction inbox as [|frame inbox [IH1 IH2]]; cbn [deliver].
  - split; [reflexivity|discriminate].
  - destruct frame; cbn [fst snd length]; split; lia.
Qed.

Lemma receive_next_closing (sub : Subscription) :
  closing sub ->
  closing (snd (receive_next sub))
  /\ isClosed (snd (receive_next sub)) = true
  /\ inbox (snd (receive_next sub)) = snd (deliver (inbox sub))
  /\ fst (receive_next sub)
     = match fst (deliver (inbox sub)) with
       | Some m => Yield m
       | None => Done
       end.
Proof.
  intros Hc. unfold receive_next.
  destruct (deliver (inbox sub)) as [delivered inbox'].
  assert ((if isClosed sub then Closed else state sub) = Closed) as ->.
  { destruct Hc as [-> | ->]; [reflexivity|now destruct (isClosed sub)]. }
  destruct delivered; cbn; repeat split; now left.
Qed.

(** On a subscription that is closing the loop of the consumer ends
    with [Done] once the frames pushed before are consumed. *)
Lemma consume_closing (fuel : nat) : forall sub : Subscription,
  closing sub -> length (inbox sub) < fuel ->
  exists sub', consume fuel sub = Some (Done, sub')
               /\ isClosed sub' = true /\ inbox sub' = [].
Proof.
  induction fuel as [|fuel IH]; intros sub Hc Hlen; [lia|].
  cbn [consume].
  destruct (receive_next_closing sub Hc) as (Hc' & Hclosed & Hinbox & Hnext).
  destruct (deliver_shorter (inbox sub)) as [Hle Hlt].
  destruct (receive_next sub) as [next sub1]. cbn [fst snd] in *.
  destruct (fst (deliver (inbox sub))) as [m|] eqn:E; subst next.
  - apply IH; [exact Hc'|]. rewrite Hinbox. specialize (Hlt m eq_refl). lia.
  - exists sub1. split; [reflexivity|]. split; [exact Hclosed|].
    rewrite Hinbox. clear -E.
    induction (inbox sub) as [|frame inbox IH]; [reflexivity|].
    destruct frame; cbn [deliver] in *; try discriminate. now apply IH.
Qed.

Lemma consume_never_raises_closing (fuel : nat) : forall sub : Subscription,
  closing sub ->
  forall error sub', consume fuel sub <> Some (Raise error, sub').
Proof.
  induction fuel as [|fuel IH]; intros sub Hc error sub'; [discriminate|].
  cbn [consume].
  destruct (receive_next_closing sub Hc) as (Hc' & _ & _ & Hnext).
  destruct (receive_next sub) as [next sub1]. cbn [fst snd] in *.
  destruct (fst (deliver (inbox sub))); subst next.
  - now apply IH.
  - discriminate.
Qed.

(** C9.  Once the client, or the subscription itself, is closed, the
    loop of a consumer that iterates [receive()] ends: it is handed the
    messages that were pushed before, then the sequence is done; the
    subscription is marked closed, and no pull of the loop raises an
    error. *)
Theorem receive_ends_on_close (sub : Subscription) :
  let ended (closed : Subscription) :=
    (exists sub',
       consume (S (length (inbox sub))) closed = Some (Done, sub')
       /\ isClosed sub' = true)
    /\ (forall fuel error sub', consume fuel closed <> Some (Raise error, sub'))
    /\ (inbox sub = [] ->
          fst (receive_next closed) = Done
          /\ isClosed (snd (receive_next closed)) = true) in
  ended (client_close sub) /\ ended (close sub).
Proof.
  assert (forall closed : Subscription,
            closing closed -> inbox closed = inbox sub ->
            (exists sub',
               consume (S (length (inbox sub))) closed = Some (Done, sub')
               /\ isClosed sub' = true)
            /\ (forall fuel error sub',
                  consume fuel closed <> Some (Raise error, sub'))
            /\ (inbox sub = [] ->
                  fst (receive_next closed) = Done
                  /\ isClosed (snd (receive_next closed)) = true)) as H.
  { intros closed Hc Hi. split; [|split].
    - destruct (consume_closing (S (length (inbox sub))) closed Hc)
        as (sub' & E & Hclosed & _); [rewrite Hi; lia|].
      now exists sub'.
    - intros fuel. now apply consume_never_raises_closing.
    - intros Hempty.
      destruct (receive_next_closing closed Hc) as (_ & Hclosed & _ & Hnext).
      rewrite Hi, Hempty in Hnext. now split. }
  cbv zeta. split; apply H; try reflexivity; now right.
Qed.

Lemma receive_ends_on_close_witness :
  inbox testSubscription = []
  /\ fst (receive_next (client_close testSubscription)) = Done
  /\ isClosed (snd (receive_next (client_close testSubscription))) = true.
Proof.
  split; [reflexivity|].
  exact (proj2 (proj2 (proj1 (receive_ends_on_close testSubscription)))
           eq_refl).
Defined.

End PubSubFacts.

(** ** More on the reply readers *)

Module ReplyEdges.
Import Js Reply Resp Command.
Import JsFacts ReplyFacts RespFacts ErrorFacts FuelFacts CommandFacts.
Local Open Scope nat_scope.

Section Edges.
Context {T : Type}.
Implicit Types (parseReply : option (ParseReply T)) (rest : list byte).

(** Every RESP value without an error frame inside, nested to any
    depth, is read back from its frame as the reply that stands for it,
    and the stream is left at the first byte after the frame, with any
    fuel beyond the length of the stream.  The value is one the client
    takes in as it is: its integers and the counts of its arrays are
    safe integers, its bulk strings fit a typed array, and the lines of
    its simple strings fit the buffer of the reader. *)
Theorem readReply_value parseReply (v : Value) rest :
  plain v -> sized v -> safe v -> buffered v ->
  run_readReply parseReply (wire v ++ rest)
  = Return (reply_of parseReply v) rest
  /\ forall fuel, length (wire v ++ rest) < fuel ->
       readReply fuel parseReply (wire v ++ rest)
       = Return (reply_of parseReply v) rest.
Proof.
  intros Hp Hs _ _.
  assert (forall fuel, length (wire v ++ rest) < fuel ->
            readReply fuel parseReply (wire v ++ rest)
            = Return (reply_of parseReply v) rest) as H.
  { intros fuel Hfuel. apply readReply_wire; [assumption..|].
    pose proof (depth_le_wire v). rewrite length_app in Hfuel. lia. }
  split; [|exact H]. apply H. lia.
Qed.

Lemma length_wire_elem (v : Value) (items : list Value) :
  v ∈ items -> length (wire v) <= length (concat (map wire items)).
Proof.
  induction items as [|w items IH]; intros Hv;
    [now apply elem_of_nil in Hv|].
  cbn [map concat]. rewrite length_app.
  apply elem_of_cons in Hv as [->|Hv]; [lia|].
  specialize (IH Hv). lia.
Qed.

Lemma readItems_before (read : M (RedisReply T)) parseReply
    (before : list Value) (more : nat) :
  Forall (fun v => forall rest,
            read (wire v ++ rest) = Return (reply_of parseReply v) rest)
    before ->
  forall array rest,
    readItems read (length before + more) array
      (concat (map wire before) ++ rest)
    = readItems read more (array ++ map (reply_of parseReply) before) rest.
Proof.
  induction 1 as [|v before Hv _ IH]; intros array rest.
  - cbn. now rewrite app_nil_r.
  - cbn [length Nat.add readItems map concat]. unfold bind.
    rewrite <- app_assoc, Hv, IH. now rewrite <- app_assoc.
Qed.

(** An error frame among the items of an array ends the reading of the
    array: [readReply] throws the error of that frame, the items before
    it are lost, and the items after it are left on the stream. *)
Theorem readReply_error_inside_array parseReply (before : list Value)
    (text : Uint8Array) (after : list Value) rest :
  Forall plain before -> Forall sized before -> LF ∉ text ->
  run_readReply parseReply
    (wire (Array (Some (before ++ Error text :: after))) ++ rest)
  = Throw (ErrorReplyError (decode (ErrorReplyCode :: text)))
      (concat (map wire after) ++ rest).
Proof.
  intros Hp Hs Ht. unfold run_readReply.
  set (items := before ++ Error text :: after).
  set (stream := wire (Array (Some items)) ++ rest).
  assert (length (concat (map wire items)) < length stream) as Hlen.
  { unfold stream. cbn [wire]. rewrite !length_app, length_line. lia. }
  remember (length stream) as bound eqn:Ebound. clear Ebound.
  assert (stream = ArrayReplyCode :: tail stream) as E by reflexivity.
  rewrite E, readReply_S, <- E. clear E.
  change (Byte.eqb ArrayReplyCode ErrorReplyCode) with false.
  change (Byte.eqb ArrayReplyCode IntegerReplyCode) with false.
  change (Byte.eqb ArrayReplyCode SimpleStringCode) with false.
  change (Byte.eqb ArrayReplyCode BulkReplyCode) with false.
  change (Byte.eqb ArrayReplyCode ArrayReplyCode) with true.
  cbv iota.
  unfold stream. cbn [wire]. rewrite <- app_assoc.
  unfold readArrayReply_with, bind.
  rewrite readLine_line by (try apply String_of_nat_no_LF; discriminate).
  unfold parseSize. cbn [tail]. rewrite parseInt_nat.
  assert (forall k : M (RedisReply T),
    match Z.of_nat (length items) with
    | (-1)%Z => ret RNull
    | _ => k
    end = k) as Ek.
  { intros k. destruct (length items); reflexivity. }
  rewrite Ek. cbn [iterations]. rewrite Nat2Z.id.
  assert (Forall (fun v => forall rest',
            readReply bound parseReply (wire v ++ rest')
            = Return (reply_of parseReply v) rest') before) as Hread.
  { rewrite Forall_forall in *. intros v Hv rest'.
    apply readReply_wire; auto.
    pose proof (depth_le_wire v).
    assert (length (wire v) <= length (concat (map wire items))).
    { unfold items. rewrite map_app, concat_app, length_app.
      pose proof (length_wire_elem v before Hv). lia. }
    lia. }
  unfold items. rewrite length_app, map_app, concat_app, <- app_assoc.
  rewrite (readItems_before _ parseReply before _ Hread).
  cbn [length readItems map concat wire]. unfold bind.
  rewrite <- app_assoc.
  destruct bound as [|fuel]; [lia|].
  now rewrite readReply_error.
Qed.

(** The count of an array: [-1] is [null]; no count at all, zero and
    every other negative count give the empty array.  Nothing is read
    after the line. *)
Theorem readArrayReply_counts (fuel : nat) parseReply (reader : BufReader)
    (line : Uint8Array) (after_line : BufReader) :
  readLine reader = Return line after_line ->
  (parseSize line = Num (-1) ->
     readArrayReply fuel parseReply reader = Return RNull after_line)
  /\ (forall z, parseSize line = Num z -> (z <= 0)%Z -> z <> (-1)%Z ->
        readArrayReply fuel parseReply reader = Return (RArray []) after_line)
  /\ (parseSize line = NaN ->
        readArrayReply fuel parseReply reader = Return (RArray []) after_line).
Proof.
  intros Hline. unfold readArrayReply, readArrayReply_with, bind.
  rewrite Hline. split; [|split].
  - intros ->. reflexivity.
  - intros z -> Hz Hne.
    destruct z as [|p|p]; [reflexivity|lia|].
    destruct p; try reflexivity. congruence.
  - intros ->. reflexivity.
Qed.

(** The text of a line that begins with an upper-case letter is no
    number. *)
Lemma parseInt_upper (c : byte) (text : list byte) :
  is_upper c = true -> parseInt (decode (c :: text)) = NaN.
Proof.
  intros Hc.
  destruct c; try discriminate Hc; reflexivity.
Qed.

(** [readArrayReply] does not look at the type byte.  Called on an
    error frame whose text begins with an upper-case letter it returns
    the empty array, where [readReply] throws the error. *)
Theorem readArrayReply_on_error_frame (fuel : nat) parseReply (c : byte)
    (text : Uint8Array) rest :
  is_upper c = true -> LF ∉ text ->
  readArrayReply fuel parseReply (line ErrorReplyCode (c :: text) ++ rest)
  = Return (RArray []) rest
  /\ readReply (S fuel) parseReply (line ErrorReplyCode (c :: text) ++ rest)
     = Throw (ErrorReplyError (decode (ErrorReplyCode :: c :: text))) rest.
Proof.
  intros Hc Ht.
  assert (LF ∉ c :: text) as Hct.
  { apply not_elem_of_cons. split; [|exact Ht].
    intros <-. discriminate Hc. }
  split; [|now apply readReply_error].
  unfold readArrayReply, readArrayReply_with, bind.
  rewrite readLine_line by (try exact Hct; discriminate).
  unfold parseSize. cbn [tail]. now rewrite parseInt_upper.
Qed.

(** The length of a bulk string: every negative length is [null], not
    only [-1]; a length that is no number is the empty body.  Nothing
    is read after the line. *)
Theorem readBulkReply_odd_length parseReply (reader : BufReader)
    (line : Uint8Array) (after_line : BufReader) :
  readLine reader = Return line after_line ->
  head line = Some BulkReplyCode ->
  (forall z, parseSize line = Num z -> (z < 0)%Z ->
     readBulkReply parseReply reader = Return RNull after_line)
  /\ (parseSize line = NaN ->
        readBulkReply parseReply reader
        = Return (terminal parseReply []) after_line).
Proof.
  intros Hline Hhead. split.
  - intros z Hz Hneg. now apply (readBulkReply_negative _ _ line _ z).
  - intros Hn. unfold readBulkReply, bind. rewrite Hline, Hhead.
    change (Byte.eqb BulkReplyCode BulkReplyCode) with true. cbv iota.
    rewrite Hn. reflexivity.
Qed.

(** The size written in decimal after a type byte is read back as it
    is, a negative one too, when it is a safe integer. *)
Theorem parseSize_decimal (c : byte) (z : Z) :
  isSafeInteger z -> parseSize (c :: String_of_Z z) = Num z.
Proof. intros _. unfold parseSize. cbn [tail]. apply parseInt_Z. Qed.

End Edges.

Ltac no_LF :=
  let H := fresh "H" in
  intros H; apply list_elem_of_In in H; cbn in H;
  repeat (destruct H as [H|H]; [discriminate H|]); exact H.

Lemma readReply_value_witness :
  plain (Array (Some [BulkString (Some (bytes "a"));
                      Array (Some [Integer 7]); BulkString None]))
  /\ sized (Array (Some [BulkString (Some (bytes "a"));
                         Array (Some [Integer 7]); BulkString None]))
  /\ safe (Array (Some [BulkString (Some (bytes "a"));
                        Array (Some [Integer 7]); BulkString None]))
  /\ buffered (Array (Some [BulkString (Some (bytes "a"));
                            Array (Some [Integer 7]); BulkString None]))
  /\ run_readReply (T:=unit) None
       (wire (Array (Some [BulkString (Some (bytes "a"));
                           Array (Some [Integer 7]); BulkString None]))
          ++ bytes "+OK" ++ CRLF)
     = Return (RArray [RString (str "a"); RArray [RNumber (Num 7)]; RNull])
         (bytes "+OK" ++ CRLF).
Proof.
  assert (plain (Array (Some [BulkString (Some (bytes "a"));
                              Array (Some [Integer 7]); BulkString None])))
    as Hp by (cbn; tauto).
  assert (sized (Array (Some [BulkString (Some (bytes "a"));
                              Array (Some [Integer 7]); BulkString None])))
    as Hs.
  { cbn [sized]. split; [|tauto].
    unfold allocatable. apply Z.leb_le. vm_compute. reflexivity. }
  assert (safe (Array (Some [BulkString (Some (bytes "a"));
                             Array (Some [Integer 7]); BulkString None])))
    as Hn.
  { cbn [safe length]. unfold isSafeInteger, MAX_SAFE_INTEGER.
    split; [lia|]. split; [exact I|]. split; [|split; exact I].
    split; [lia|]. split; [lia|exact I]. }
  assert (buffered (Array (Some [BulkString (Some (bytes "a"));
                                 Array (Some [Integer 7]); BulkString None])))
    as Hb by (cbn; tauto).
  split; [exact Hp|]. split; [exact Hs|]. split; [exact Hn|].
  split; [exact Hb|].
  exact (proj1 (readReply_value (T:=unit) None _ (bytes "+OK" ++ CRLF)
                  Hp Hs Hn Hb)).
Defined.

Lemma parseSize_decimal_witness :
  isSafeInteger (-2)
  /\ parseSize (BulkReplyCode :: String_of_Z (-2)) = Num (-2).
Proof.
  assert (isSafeInteger (-2)) as H
    by (unfold isSafeInteger, MAX_SAFE_INTEGER; lia).
  split; [exact H|].
  exact (parseSize_decimal BulkReplyCode (-2)%Z H).
Defined.

Lemma readReply_error_inside_array_witness :
  Forall plain [Integer 1]
  /\ Forall sized [Integer 1]
  /\ (LF ∉ bytes "ERR x")
  /\ run_readReply (T:=unit) None
       (wire (Array (Some ([Integer 1] ++ Error (bytes "ERR x")
                             :: [Integer 2]))) ++ [])
     = Throw (ErrorReplyError (str "-ERR x")) (bytes ":2" ++ CRLF).
Proof.
  assert (Forall plain [Integer 1]) as Hp
    by (repeat constructor).
  assert (Forall sized [Integer 1]) as Hs
    by (repeat constructor).
  assert (LF ∉ bytes "ERR x") as Ht by no_LF.
  split; [exact Hp|]. split; [exact Hs|]. split; [exact Ht|].
  exact (readReply_error_inside_array (T:=unit) None [Integer 1]
           (bytes "ERR x") [Integer 2] [] Hp Hs Ht).
Defined.

Lemma readArrayReply_counts_witness :
  readLine (bytes "*-2" ++ CRLF ++ bytes ":1" ++ CRLF)
  = Return (bytes "*-2") (bytes ":1" ++ CRLF)
  /\ parseSize (bytes "*-2") = Num (-2)
  /\ readArrayReply (T:=unit) 1 None (bytes "*-2" ++ CRLF ++ bytes ":1" ++ CRLF)
     = Return (RArray []) (bytes ":1" ++ CRLF).
Proof.
  assert (readLine (bytes "*-2" ++ CRLF ++ bytes ":1" ++ CRLF)
          = Return (bytes "*-2") (bytes ":1" ++ CRLF)) as Hl
    by (vm_compute; reflexivity).
  assert (parseSize (bytes "*-2") = Num (-2)) as Hz
    by (vm_compute; reflexivity).
  split; [exact Hl|]. split; [exact Hz|].
  refine (proj1 (proj2 (readArrayReply_counts (T:=unit) 1 None _ _ _ Hl))
            (-2)%Z Hz _ _); lia.
Defined.

Lemma readArrayReply_on_error_frame_witness :
  is_upper "E"%byte = true
  /\ (LF ∉ bytes "RR unknown")
  /\ readArrayReply (T:=unit) 0 None
       (line ErrorReplyCode ("E"%byte :: bytes "RR unknown") ++ [])
     = Return (RArray []) []
  /\ readReply (T:=unit) 1 None
       (line ErrorReplyCode ("E"%byte :: bytes "RR unknown") ++ [])
     = Throw (ErrorReplyError (str "-ERR unknown")) [].
Proof.
  assert (is_upper "E"%byte = true) as Hc by reflexivity.
  assert (LF ∉ bytes "RR unknown") as Ht by no_LF.
  split; [exact Hc|]. split; [exact Ht|].
  exact (readArrayReply_on_error_frame (T:=unit) 0 None "E"%byte
           (bytes "RR unknown") [] Hc Ht).
Defined.

Lemma readBulkReply_odd_length_witness :
  readLine (bytes "$-5" ++ CRLF ++ bytes "abc")
  = Return (bytes "$-5") (bytes "abc")
  /\ head (bytes "$-5") = Some BulkReplyCode
  /\ parseSize (bytes "$-5") = Num (-5)
  /\ readBulkReply (T:=unit) None (bytes "$-5" ++ CRLF ++ bytes "abc")
     = Return RNull (bytes "abc").
Proof.
  assert (readLine (bytes "$-5" ++ CRLF ++ bytes "abc")
          = Return (bytes "$-5") (bytes "abc")) as Hl
    by (vm_compute; reflexivity).
  assert (head (bytes "$-5") = Some BulkReplyCode) as Hh by reflexivity.
  assert (parseSize (bytes "$-5") = Num (-5)) as Hz
    by (vm_compute; reflexivity).
  split; [exact Hl|]. split; [exact Hh|]. split; [exact Hz|].
  refine (proj1 (readBulkReply_odd_length (T:=unit) None _ _ _ Hl Hh)
            (-5)%Z Hz _); lia.
Defined.

End ReplyEdges.

(** ** What the reply readers throw and consume *)

Module ReplyOutcomes.
Import Js Reply Resp Command.
Import JsFacts ReplyFacts RespFacts ErrorFacts FuelFacts CommandFacts.
Local Open Scope nat_scope.

Section Outcomes.
Context {T : Type}.
Implicit Types (parseReply : option (ParseReply T)) (reader : BufReader).

(** After a successful [peek] the line that is read begins with the
    byte that was seen. *)
Lemma readLine_after_peek (c : byte) reader :
  c <> LF -> c <> CR ->
  exists line after_line,
    readLine (c :: reader) = Return line after_line
    /\ head line = Some c
    /\ length after_line < length (c :: reader).
Proof.
  intros Hlf Hcr. unfold readLine.
  destruct (BufReader_readLine (c :: reader)) as [[line r']|] eqn:E.
  - exists line, r'. split; [reflexivity|].
    pose proof (BufReader_readLine_suffix _ _ _ E) as [_ Hshort].
    split; [|exact Hshort].
    apply BufReader_readLine_inv in E as [(l & El & ->)|(<- & _ & _)];
      [|reflexivity].
    destruct l as [|c' l]; cbn [app] in El; injection El as Hc _;
      [congruence|subst c'].
    now apply strip_CR_head.
  - exfalso. unfold BufReader_readLine in E.
    destruct (split_LF _) as [[? ?]|]; discriminate.
Qed.

Local Abbreviation fine o :=
  (match o with
   | Throw e _ => thrown_by_readReply e
   | _ => True
   end).

Lemma fine_readItems (read : M (RedisReply T)) :
  (forall reader, fine (read reader)) ->
  forall n array reader,
    match readItems read n array reader with
    | Throw e _ => thrown_by_readReply e
    | _ => True
    end.
Proof.
  intros Hr. induction n as [|n IH]; intros array reader; cbn [readItems].
  - exact I.
  - unfold bind. specialize (Hr reader).
    destruct (read reader) as [item r'|e r'|]; [apply IH|exact Hr|exact I].
Qed.

Lemma fine_readReply fuel parseReply :
  forall reader, fine (readReply fuel parseReply reader).
Proof.
  induction fuel as [|fuel IH]; intros reader; [exact I|].
  destruct reader as [|c reader]; [exact I|].
  rewrite readReply_S.
  destruct (Byte.eqb c ErrorReplyCode) eqn:Ee.
  { apply Byte.byte_dec_bl in Ee. subst c.
    destruct (readLine_after_peek ErrorReplyCode reader)
      as (line & r' & Hl & Hh & _); try discriminate.
    unfold tryReadErrorReply, bind. rewrite Hl. unfold throw.
    unfold tryParseErrorReply. destruct line as [|c line]; [discriminate|].
    injection Hh as ->.
    change (Byte.eqb ErrorReplyCode ErrorReplyCode) with true. exact I. }
  destruct (Byte.eqb c IntegerReplyCode) eqn:Ei.
  { apply Byte.byte_dec_bl in Ei. subst c.
    destruct (readLine_after_peek IntegerReplyCode reader)
      as (line & r' & Hl & _); try discriminate.
    unfold readIntegerReply, bind. rewrite Hl. exact I. }
  destruct (Byte.eqb c SimpleStringCode) eqn:Es.
  { apply Byte.byte_dec_bl in Es. subst c.
    destruct (readLine_after_peek SimpleStringCode reader)
      as (line & r' & Hl & Hh & _); try discriminate.
    unfold readSimpleStringReply, bind. rewrite Hl, Hh.
    change (Byte.eqb SimpleStringCode SimpleStringCode) with true. exact I. }
  destruct (Byte.eqb c BulkReplyCode) eqn:Eb.
  { apply Byte.byte_dec_bl in Eb. subst c.
    destruct (readLine_after_peek BulkReplyCode reader)
      as (line & r' & Hl & Hh & _); try discriminate.
    unfold readBulkReply, bind. rewrite Hl, Hh.
    change (Byte.eqb BulkReplyCode BulkReplyCode) with true. cbv iota.
    destruct (is_negative (parseSize line)); [exact I|].
    unfold readDest. destruct (parseSize line) as [|z]; [exact I|].
    destruct (2 ^ 53 - 1 <? z + 2)%Z; [exact I|].
    destruct (BufReader_readFull _ r'); exact I. }
  destruct (Byte.eqb c ArrayReplyCode) eqn:Ea; [|exact I].
  apply Byte.byte_dec_bl in Ea. subst c.
  destruct (readLine_after_peek ArrayReplyCode reader)
    as (line & r' & Hl & _); try discriminate.
  unfold readArrayReply_with, bind. rewrite Hl.
  pose proof (fine_readItems (readReply fuel parseReply) IH
                (iterations (parseSize line)) [] r') as Hitems.
  destruct (parseSize line) as [|[|p|[p|p|]]]; try exact I;
    cbn [iterations] in *;
    destruct (readItems _ _ _ _) as [a r''|e r''|]; try exact I; exact Hitems.
Qed.

(** [readReply] never throws the bare [InvalidStateError] of a missing
    line nor the error "invalid line": what it throws is the end of the
    stream, an unknown type byte, an error reply, or a failure to
    allocate or to fill the body of a bulk string. *)
Theorem readReply_throws (fuel : nat) parseReply reader
    (e : Reply.Error) (reader' : BufReader) :
  readReply fuel parseReply reader = Throw e reader' ->
  e <> InvalidStateError
  /\ (forall line, e <> InvalidLine line)
  /\ (e = EOFError \/ (exists code, e = UnknownCode code)
      \/ (exists msg, e = ErrorReplyError msg)
      \/ e = PartialReadError \/ e = RangeError).
Proof.
  intros H. pose proof (fine_readReply fuel parseReply reader) as Hf.
  rewrite H in Hf.
  split; [intros ->; exact Hf|]. split; [intros line ->; exact Hf|].
  destruct e; try contradiction; eauto 6.
Qed.

(** A reply that is returned has consumed at least one byte, and what
    is left of the stream, after a reply or after an exception, is an
    end of what was there: the reader never reads a byte twice and
    never invents one. *)
Theorem readReply_consumes (fuel : nat) parseReply reader :
  (forall value reader',
     readReply fuel parseReply reader = Return value reader' ->
     reader' `suffix_of` reader /\ length reader' < length reader)
  /\ (forall e reader',
        readReply fuel parseReply reader = Throw e reader' ->
        reader' `suffix_of` reader).
Proof.
  pose proof (sound_readReply fuel parseReply reader) as Hs.
  split.
  - intros value reader' H. rewrite H in Hs. cbn in Hs. split; [exact Hs|].
    destruct fuel as [|fuel]; [discriminate|].
    destruct reader as [|c reader]; [discriminate|].
    rewrite readReply_S in H.
    assert (forall (K : Uint8Array -> M (RedisReply T)),
              (forall line r1 v r2, K line r1 = Return v r2 ->
                                    length r2 <= length r1) ->
              bind readLine K (c :: reader) = Return value reader' ->
              length reader' < length (c :: reader)) as Hbind.
    { intros K HK Hb. unfold bind in Hb.
      destruct (readLine (c :: reader)) as [line r1|e r1|] eqn:El;
        try discriminate.
      apply readLine_Return in El.
      apply BufReader_readLine_suffix in El as [_ Hshort].
      apply HK in Hb. lia. }
    destruct (Byte.eqb c ErrorReplyCode).
    { unfold tryReadErrorReply, bind in H.
      destruct (readLine (c :: reader)); discriminate. }
    destruct (Byte.eqb c IntegerReplyCode).
    { refine (Hbind _ _ H). intros line r1 v r2 Heq.
      unfold ret in Heq. inversion Heq; subst; reflexivity. }
    destruct (Byte.eqb c SimpleStringCode).
    { refine (Hbind _ _ H). intros line r1 v r2.
      destruct (head line) as [c'|]; [|discriminate].
      destruct (Byte.eqb c' SimpleStringCode); [|discriminate].
      intros Heq. unfold ret in Heq. inversion Heq; subst; reflexivity. }
    destruct (Byte.eqb c BulkReplyCode).
    { refine (Hbind _ _ H). intros line r1 v r2.
      destruct (head line) as [c'|]; [|discriminate].
      destruct (Byte.eqb c' BulkReplyCode); [|discriminate].
      cbv zeta. destruct (is_negative (parseSize line));
        [intros Heq; unfold ret in Heq; inversion Heq; subst; reflexivity|].
      unfold bind. pose proof (sound_readDest (parseSize line) r1) as Hd.
      destruct (readDest (parseSize line) r1) as [dest r3|e r3|];
        try discriminate.
      intros Heq. unfold ret in Heq. inversion Heq; subst.
      cbn in Hd. now apply suffix_length. }
    destruct (Byte.eqb c ArrayReplyCode); [|discriminate].
    refine (Hbind _ _ H). intros line r1 v r2.
    assert (forall n, bind (readItems (readReply fuel parseReply) n [])
                        (fun array => ret (RArray array)) r1 = Return v r2 ->
                      length r2 <= length r1) as Hitems.
    { intros n. unfold bind.
      pose proof (sound_readItems (readReply fuel parseReply) n
                    (sound_readReply fuel parseReply) [] r1) as Hi.
      destruct (readItems _ n [] r1) as [a r3|e r3|]; try discriminate.
      intros Heq. unfold ret in Heq. inversion Heq; subst.
      cbn in Hi. now apply suffix_length. }
    cbv zeta. destruct (parseSize line) as [|[|p|[p|p|]]]; try apply Hitems.
    intros Heq. unfold ret in Heq. inversion Heq; subst; reflexivity.
  - intros e reader' H. rewrite H in Hs. cbn in Hs.
    destruct e; try exact Hs. exact (proj2 Hs).
Qed.

(** [readReply] ends on every stream: arrays are nested at most as deep
    as the stream is long, so with fuel beyond this length the outcome
    is the same for every fuel and is never the running out of it. *)
Theorem readReply_total (fuel : nat) parseReply reader :
  length reader < fuel ->
  readReply fuel parseReply reader = run_readReply parseReply reader
  /\ readReply fuel parseReply reader <> OutOfFuel.
Proof.
  intros H. split; [now apply run_readReply_fuel|now apply readReply_fuel].
Qed.

End Outcomes.

Lemma readReply_throws_witness :
  readReply (T:=unit) 1 None (bytes "-ERR unknown" ++ CRLF)
  = Throw (ErrorReplyError (str "-ERR unknown")) []
  /\ ErrorReplyError (str "-ERR unknown") <> InvalidStateError
  /\ (forall line, ErrorReplyError (str "-ERR unknown") <> InvalidLine line).
Proof.
  assert (readReply (T:=unit) 1 None (bytes "-ERR unknown" ++ CRLF)
          = Throw (ErrorReplyError (str "-ERR unknown")) []) as Hr
    by (vm_compute; reflexivity).
  split; [exact Hr|].
  split; [exact (proj1 (readReply_throws (T:=unit) 1 None _ _ _ Hr))|].
  exact (proj1 (proj2 (readReply_throws (T:=unit) 1 None _ _ _ Hr))).
Defined.

Lemma readReply_consumes_witness :
  readReply (T:=unit) 1 None (bytes ":1" ++ CRLF ++ bytes "+OK" ++ CRLF)
  = Return (RNumber (Num 1)) (bytes "+OK" ++ CRLF)
  /\ (bytes "+OK" ++ CRLF)
       `suffix_of` (bytes ":1" ++ CRLF ++ bytes "+OK" ++ CRLF)
  /\ length (bytes "+OK" ++ CRLF)
     < length (bytes ":1" ++ CRLF ++ bytes "+OK" ++ CRLF).
Proof.
  assert (readReply (T:=unit) 1 None
            (bytes ":1" ++ CRLF ++ bytes "+OK" ++ CRLF)
          = Return (RNumber (Num 1)) (bytes "+OK" ++ CRLF)) as Hr
    by (vm_compute; reflexivity).
  split; [exact Hr|].
  exact (proj1 (readReply_consumes (T:=unit) 1 None _) _ _ Hr).
Defined.

Lemma readReply_total_witness :
  length (bytes "*1" ++ CRLF ++ bytes ":1" ++ CRLF) < 9
  /\ readReply (T:=unit) 9 None (bytes "*1" ++ CRLF ++ bytes ":1" ++ CRLF)
     = run_readReply None (bytes "*1" ++ CRLF ++ bytes ":1" ++ CRLF)
  /\ readReply (T:=unit) 9 None (bytes "*1" ++ CRLF ++ bytes ":1" ++ CRLF)
     <> OutOfFuel.
Proof.
  assert (length (bytes "*1" ++ CRLF ++ bytes ":1" ++ CRLF) < 9) as H
    by (cbn; lia).
  split; [exact H|].
  exact (readReply_total (T:=unit) 9 None _ H).
Defined.

End ReplyOutcomes.

(** ** The queue of the pipeline executor at work *)

Module PipelineRounds.
Import Js Reply Resp Command Pipeline.
Import JsFacts ReplyFacts RespFacts ErrorFacts FuelFacts CommandFacts.
Import PipelineFacts PipelineTheorems.
Local Open Scope nat_scope.

Section Rounds.
Context {T : Type}.
Variable kEmptyRedisArgs : list RedisValue.
Implicit Types (rt : Runtime T) (hist : list (QueueEntry T)).

Local Abbreviation run := (run kEmptyRedisArgs).
Local Abbreviation record := (record (T:=T) kEmptyRedisArgs).

Lemma readReplies_total (commands : list (CommandRecord T)) :
  forall ret reader, readReplies commands ret reader <> OutOfFuel.
Proof.
  induction commands as [|c commands IH]; intros ret reader;
    cbn [readReplies]; [discriminate|].
  pose proof (run_readReply_total (parseReply c) reader) as Ht.
  destruct (run_readReply (parseReply c) reader) as [rep r'|e r'|];
    [apply IH| |congruence].
  destruct e; try discriminate. apply IH.
Qed.

(** One round on a state of the invariant: the head of the queue
    leaves it, whatever became of its batch. *)
Lemma round_Inv w0 rt hist :
  Inv w0 rt hist ->
  let rt' := run rt [Settle 0; Finally] in
  Inv w0 rt' hist
  /\ queue (executor rt') = tail (queue (executor rt))
  /\ commands (executor rt') = commands (executor rt)
  /\ (forall e, running rt = [e] ->
        exists s, settled rt' = settled rt ++ [(e, s)])
  /\ (running rt = [] -> settled rt' = settled rt).
Proof.
  intros H rt'. split.
  { unfold rt'. cbn [Pipeline.run fold_left Pipeline.step].
    now apply Inv_finally, Inv_settle. }
  unfold rt'. cbn [Pipeline.run fold_left Pipeline.step]. clear rt'.
  destruct H as [_ _ Hp _]. apply phase_cases in Hp.
  destruct rt as [[conn tx cmds q] r due st next].
  cbn [executor running finally_due queue commands settled] in *.
  destruct Hp as [(-> & -> & ->)|[(e & q' & -> & -> & ->)|(e & q' & -> & -> & ->)]].
  - cbn. split; [reflexivity|]. split; [reflexivity|].
    split; [discriminate|reflexivity].
  - unfold settle. cbn [running lookup list_lookup executor connection].
    unfold sendCommands.
    pose proof (readReplies_total (e_commands e) [] (reader conn)) as Ht.
    destruct (readReplies (e_commands e) [] (reader conn)) as [v r'|err r'|];
      [| |congruence];
      unfold finally, dequeue; cbn; destruct q'; cbn;
      (split; [reflexivity|]; split; [reflexivity|]; split;
       [intros e0 [= <-]; eauto|discriminate]).
  - unfold settle. cbn [running lookup list_lookup].
    unfold finally, dequeue. cbn. destruct q'; cbn;
      (split; [reflexivity|]; split; [reflexivity|]; split;
       [discriminate|reflexivity]).
Qed.

Lemma rounds_S (n : nat) :
  rounds (T:=T) (S n) = [Settle 0; Finally] ++ rounds n.
Proof. reflexivity. Qed.

Lemma rounds_Inv w0 (n : nat) : forall rt hist,
  Inv w0 rt hist -> length (queue (executor rt)) <= n ->
  Inv w0 (run rt (rounds n)) hist
  /\ queue (executor (run rt (rounds n))) = []
  /\ commands (executor (run rt (rounds n))) = commands (executor rt).
Proof.
  induction n as [|n IH]; intros rt hist H Hn.
  - cbn. split; [exact H|]. split; [|reflexivity].
    destruct (queue (executor rt)); [reflexivity|cbn in Hn; lia].
  - rewrite rounds_S, (run_app kEmptyRedisArgs).
    destruct (round_Inv w0 rt hist H) as (H' & Hq & Hc & _).
    destruct (IH _ hist H') as (H'' & Hq' & Hc').
    + rewrite Hq. destruct (queue (executor rt)); cbn in *; lia.
    + split; [exact H''|]. split; [exact Hq'|]. now rewrite Hc', Hc.
Qed.

(** One turn of the event loop on any state the executor can be in:
    the batch at the head of the queue leaves the queue, whether its
    deferred was resolved or rejected, and the next batch, if there is
    one, is the one that runs; the pending commands are not touched. *)
Theorem round_advances (conn : Connection) (tx : bool)
    (events : list (Event T)) :
  let rt := run (start conn tx) events in
  let rt' := run rt [Settle 0; Finally] in
  queue (executor rt') = tail (queue (executor rt))
  /\ running rt' = take 1 (queue (executor rt'))
  /\ finally_due rt' = 0
  /\ commands (executor rt') = commands (executor rt)
  /\ (forall e, running rt = [e] ->
        exists s, settled rt' = settled rt ++ [(e, s)])
  /\ (running rt = [] -> settled rt' = settled rt).
Proof.
  intros rt rt'.
  destruct (Inv_run kEmptyRedisArgs (writer conn) events
              (start conn tx) [] (Inv_start conn tx)) as (H & _ & _).
  fold rt in H.
  destruct (round_Inv _ _ _ H) as ([_ _ Hp _] & Hq & Hc & Hs1 & Hs2).
  fold rt' in Hp, Hq, Hc, Hs1, Hs2.
  assert (finally_due rt' = 0) as Hdue.
  { unfold rt'. cbn [Pipeline.run fold_left Pipeline.step].
    unfold finally, dequeue.
    pose proof (Inv_settle (writer conn) rt _ 0 H) as [_ _ Hp' _].
    apply phase_cases in Hp'.
    destruct Hp' as [(_ & Hd & _)|[(e & q & _ & Hd & _)|(e & q & _ & Hd & _)]];
      rewrite Hd; try exact Hd.
    cbn. destruct (tail (queue (executor (settle rt 0)))); reflexivity. }
  split; [exact Hq|]. split; [|split; [exact Hdue|]].
  - apply phase_cases in Hp.
    destruct Hp as [(-> & _ & ->)|[(e & q & -> & _ & ->)|(e & q & _ & Hd & _)]];
      try reflexivity. congruence.
  - split; [exact Hc|]. split; assumption.
Qed.

(** No flush is lost: after as many turns of the event loop as the
    queue is long, the queue is empty, nothing runs, and the deferreds
    of all the flushes have been settled, in the order of the flushes. *)
Theorem all_batches_settle (conn : Connection) (tx : bool)
    (events : list (Event T)) (n : nat) :
  let rt := run (start conn tx) events in
  let rt' := run rt (rounds n) in
  length (queue (executor rt)) <= n ->
  queue (executor rt') = []
  /\ running rt' = []
  /\ finally_due rt' = 0
  /\ map fst (settled rt')
     = spec_entries tx 0 (spec_batches kEmptyRedisArgs [] events)
  /\ commands (executor rt') = commands (executor rt).
Proof.
  intros rt rt' Hn.
  destruct (Inv_run kEmptyRedisArgs (writer conn) events
              (start conn tx) [] (Inv_start conn tx)) as (H & _ & _).
  fold rt in H. cbn [app start executor new_PipelineExecutor Pipeline.tx
                     commands next_deferred] in H.
  destruct (rounds_Inv _ n rt _ H Hn) as ([Hh _ Hp _] & Hq & Hc).
  fold rt' in Hh, Hp, Hq, Hc.
  apply phase_cases in Hp.
  destruct Hp as [(Hr & Hd & _)|[(e & q & _ & _ & Hq')|(e & q & _ & _ & Hq')]];
    try congruence.
  split; [exact Hq|]. split; [exact Hr|]. split; [exact Hd|].
  split; [|exact Hc].
  unfold waiting in Hh. rewrite Hd, Hq, app_nil_r in Hh. exact Hh.
Qed.


End Rounds.

Ltac no_LF :=
  let H := fresh "H" in
  intros H; apply list_elem_of_In in H; cbn in H;
  repeat (destruct H as [H|H]; [discriminate H|]); exact H.

Lemma round_advances_witness :
  running (Pipeline.run [] (start (T:=unit) (connection_with []) false)
             [CallFlush])
  = [{| e_commands := []; e_d := 0 |}]
  /\ exists s,
       settled (Pipeline.run []
                  (Pipeline.run [] (start (T:=unit) (connection_with []) false)
                     [CallFlush])
                  [Settle 0; Finally])
       = settled (Pipeline.run [] (start (connection_with []) false)
                    [CallFlush])
         ++ [({| e_commands := []; e_d := 0 |}, s)].
Proof.
  assert (running (Pipeline.run [] (start (T:=unit) (connection_with []) false)
                     [CallFlush])
          = [{| e_commands := []; e_d := 0 |}]) as H by reflexivity.
  split; [exact H|].
  exact (proj1 (proj2 (proj2 (proj2 (proj2
    (round_advances (T:=unit) [] (connection_with []) false [CallFlush])))))
    _ H).
Defined.

Lemma all_batches_settle_witness :
  length (queue (executor
            (Pipeline.run [] (start (connection_with testConcurrent_frames) false)
               [CallSend (call "SET" ["a"; "a"]); CallFlush;
                CallSend (call "GET" ["a"]); CallFlush]))) <= 2
  /\ queue (executor
       (Pipeline.run []
          (Pipeline.run [] (start (connection_with testConcurrent_frames) false)
             [CallSend (call "SET" ["a"; "a"]); CallFlush;
              CallSend (call "GET" ["a"]); CallFlush])
          (rounds 2))) = []
  /\ map fst (settled
       (Pipeline.run []
          (Pipeline.run [] (start (connection_with testConcurrent_frames) false)
             [CallSend (call "SET" ["a"; "a"]); CallFlush;
              CallSend (call "GET" ["a"]); CallFlush])
          (rounds 2)))
     = [{| e_commands := [Pipeline.record [] (call "SET" ["a"; "a"])];
           e_d := 0 |};
        {| e_commands := [Pipeline.record [] (call "GET" ["a"])];
           e_d := 1 |}].
Proof.
  assert (length (queue (executor
            (Pipeline.run [] (start (connection_with testConcurrent_frames) false)
               [CallSend (call "SET" ["a"; "a"]); CallFlush;
                CallSend (call "GET" ["a"]); CallFlush]))) <= 2) as H
    by (cbn; lia).
  split; [exact H|].
  destruct (all_batches_settle [] (connection_with testConcurrent_frames)
              false [CallSend (call "SET" ["a"; "a"]); CallFlush;
                     CallSend (call "GET" ["a"]); CallFlush] 2 H)
    as (Hq & _ & _ & Hs & _).
  split; [exact Hq|exact Hs].
Defined.


End PipelineRounds.

(** ** The type byte and the reply *)

Module ReplyKinds.
Import Js Reply Resp Command.
Import JsFacts ReplyFacts RespFacts ErrorFacts FuelFacts CommandFacts.
Local Open Scope nat_scope.

Section Kinds.
Context {T : Type}.

Lemma eqb_code (c code : byte) : Byte.eqb c code = true -> c = code.
Proof. apply Byte.byte_dec_bl. Qed.

(** Without a [parseReply] of the caller, the type byte decides what
    kind of value [readReply] returns: a number after ':', a string
    after '+', a string or [null] after '$', an array or [null] after
    '*'; after any other byte, and at the end of the stream, nothing is
    returned. *)
Theorem readReply_kind (fuel : nat) (reader : BufReader)
    (value : RedisReply T) (reader' : BufReader) :
  readReply fuel None reader = Return value reader' ->
  exists c, head reader = Some c
    /\ ((c = IntegerReplyCode /\ exists n, value = RNumber n)
        \/ (c = SimpleStringCode /\ exists s, value = RString s)
        \/ (c = BulkReplyCode /\ (value = RNull \/ exists s, value = RString s))
        \/ (c = ArrayReplyCode
            /\ (value = RNull \/ exists items, value = RArray items))).
Proof.
  intros H. destruct fuel as [|fuel]; [discriminate|].
  destruct reader as [|c reader]; [discriminate|].
  exists c. split; [reflexivity|]. rewrite readReply_S in H.
  destruct (Byte.eqb c ErrorReplyCode) eqn:E1.
  { unfold tryReadErrorReply, bind in H.
    destruct (readLine (c :: reader)); discriminate. }
  destruct (Byte.eqb c IntegerReplyCode) eqn:E2.
  { left. split; [now apply eqb_code|].
    unfold readIntegerReply, bind, ret in H.
    destruct (readLine (c :: reader)); [|discriminate..].
    inversion H. eauto. }
  destruct (Byte.eqb c SimpleStringCode) eqn:E3.
  { right; left. split; [now apply eqb_code|].
    unfold readSimpleStringReply, bind, ret, throw in H.
    destruct (readLine (c :: reader)) as [line r|e r|]; [|discriminate..].
    destruct (head line) as [c'|]; [|discriminate].
    destruct (Byte.eqb c' SimpleStringCode); [|discriminate].
    cbv zeta in H. inversion H. cbn. eauto. }
  destruct (Byte.eqb c BulkReplyCode) eqn:E4.
  { right; right; left. split; [now apply eqb_code|].
    unfold readBulkReply, bind, ret, throw in H.
    destruct (readLine (c :: reader)) as [line r|e r|]; [|discriminate..].
    destruct (head line) as [c'|]; [|discriminate].
    destruct (Byte.eqb c' BulkReplyCode); [|discriminate].
    cbv zeta in H.
    destruct (is_negative (parseSize line)); [inversion H; now left|].
    destruct (readDest (parseSize line) r); [|discriminate..].
    inversion H. right. cbn. eauto. }
  destruct (Byte.eqb c ArrayReplyCode) eqn:E5; [|discriminate].
  right; right; right. split; [now apply eqb_code|].
  unfold readArrayReply_with, bind, ret in H.
  destruct (readLine (c :: reader)) as [line r|e r|]; [|discriminate..].
  cbv zeta in H.
  assert (forall n,
            match readItems (readReply fuel None) n [] r with
            | Return a r' => Return (RArray a) r'
            | Throw e r' => Throw e r'
            | OutOfFuel => OutOfFuel
            end = Return value reader' ->
            exists items, value = RArray items) as Harr.
  { intros n Hn. destruct (readItems _ n [] r); [|discriminate..].
    inversion Hn. eauto. }
  destruct (parseSize line) as [|[|p|p]]; try (right; now apply Harr in H).
  destruct p; try (right; now apply Harr in H).
  inversion H. now left.
Qed.

(** At the end of the stream [readReply] throws [EOFError]; before a
    byte that is no type byte it throws, and the byte stays on the
    stream. *)
Theorem readReply_rejects (fuel : nat) (parseReply : option (ParseReply T))
    (c : byte) (rest : list byte) :
  c <> ErrorReplyCode -> c <> IntegerReplyCode -> c <> SimpleStringCode ->
  c <> BulkReplyCode -> c <> ArrayReplyCode ->
  readReply (S fuel) parseReply [] = Throw EOFError []
  /\ readReply (S fuel) parseReply (c :: rest)
     = Throw (UnknownCode c) (c :: rest).
Proof.
  intros H1 H2 H3 H4 H5. split; [reflexivity|].
  rewrite readReply_S.
  destruct (Byte.eqb c ErrorReplyCode) eqn:E1;
    [now apply eqb_code in E1|].
  destruct (Byte.eqb c IntegerReplyCode) eqn:E2;
    [now apply eqb_code in E2|].
  destruct (Byte.eqb c SimpleStringCode) eqn:E3;
    [now apply eqb_code in E3|].
  destruct (Byte.eqb c BulkReplyCode) eqn:E4;
    [now apply eqb_code in E4|].
  destruct (Byte.eqb c ArrayReplyCode) eqn:E5;
    [now apply eqb_code in E5|].
  reflexivity.
Qed.

End Kinds.

Lemma readReply_kind_witness :
  readReply (T:=unit) 1 None (bytes "$-1" ++ CRLF) = Return RNull []
  /\ exists c, head (bytes "$-1" ++ CRLF) = Some c
       /\ ((c = IntegerReplyCode /\ exists n, RNull (T:=unit) = RNumber n)
           \/ (c = SimpleStringCode /\ exists s, RNull (T:=unit) = RString s)
           \/ (c = BulkReplyCode
               /\ (RNull (T:=unit) = RNull
                   \/ exists s, RNull (T:=unit) = RString s))
           \/ (c = ArrayReplyCode
               /\ (RNull (T:=unit) = RNull
                   \/ exists items, RNull (T:=unit) = RArray items))).
Proof.
  assert (readReply (T:=unit) 1 None (bytes "$-1" ++ CRLF) = Return RNull [])
    as H by (vm_compute; reflexivity).
  split; [exact H|].
  exact (readReply_kind (T:=unit) 1 _ _ _ H).
Defined.

Lemma readReply_rejects_witness :
  "?"%byte <> ErrorReplyCode /\ "?"%byte <> IntegerReplyCode
  /\ "?"%byte <> SimpleStringCode /\ "?"%byte <> BulkReplyCode
  /\ "?"%byte <> ArrayReplyCode
  /\ readReply (T:=unit) 1 None ("?"%byte :: bytes "OK")
     = Throw (UnknownCode "?"%byte) ("?"%byte :: bytes "OK").
Proof.
  assert ("?"%byte <> ErrorReplyCode) as H1 by discriminate.
  assert ("?"%byte <> IntegerReplyCode) as H2 by discriminate.
  assert ("?"%byte <> SimpleStringCode) as H3 by discriminate.
  assert ("?"%byte <> BulkReplyCode) as H4 by discriminate.
  assert ("?"%byte <> ArrayReplyCode) as H5 by discriminate.
  split; [exact H1|]. split; [exact H2|]. split; [exact H3|].
  split; [exact H4|]. split; [exact H5|].
  exact (proj2 (readReply_rejects (T:=unit) 0 None "?"%byte (bytes "OK")
                  H1 H2 H3 H4 H5)).
Defined.

End ReplyKinds.

(** ** A batch that fails *)

Module PipelineFailures.
Import Js Reply Resp Command Pipeline.
Import JsFacts ReplyFacts RespFacts ErrorFacts FuelFacts CommandFacts.
Import PipelineFacts PipelineTheorems.
Local Open Scope nat_scope.

Section Failures.
Context {T : Type}.
Variable kEmptyRedisArgs : list RedisValue.

Local Abbreviation run := (run kEmptyRedisArgs).
Local Abbreviation record := (record (T:=T) kEmptyRedisArgs).



(** A flush of an idle executor with nothing pending, outside a
    transaction: the deferred is resolved with the empty list and the
    connection is as it was, nothing written and nothing read, whatever
    the stream holds. *)
Theorem flush_nothing_pending (rt : Runtime T) :
  let rt' := run rt [CallFlush; Settle 0; Finally] in
  running rt = [] -> finally_due rt = 0 -> queue (executor rt) = [] ->
  commands (executor rt) = [] -> tx (executor rt) = false ->
  settled rt'
  = settled rt ++ [({| e_commands := []; e_d := next_deferred rt |},
                    Fulfilled [])]
  /\ connection (executor rt') = connection (executor rt)
  /\ queue (executor rt') = [] /\ running rt' = [] /\ finally_due rt' = 0.
Proof.
  destruct rt as [[[w r] tx cmds q] run0 due st next].
  cbn [running finally_due executor queue commands Pipeline.tx settled
       next_deferred connection].
  intros -> -> -> -> ->. cbn. unfold encodeBatch. cbn.
  rewrite app_nil_r. auto.
Qed.

End Failures.

Ltac no_LF :=
  let H := fresh "H" in
  intros H; apply list_elem_of_In in H; cbn in H;
  repeat (destruct H as [H|H]; [discriminate H|]); exact H.


Lemma flush_nothing_pending_witness :
  running (start (T:=unit) (connection_with [Integer 1]) false) = []
  /\ finally_due (start (T:=unit) (connection_with [Integer 1]) false) = 0
  /\ queue (executor (start (T:=unit) (connection_with [Integer 1]) false)) = []
  /\ commands (executor (start (T:=unit) (connection_with [Integer 1]) false))
     = []
  /\ tx (executor (start (T:=unit) (connection_with [Integer 1]) false))
     = false
  /\ connection (executor
       (Pipeline.run [] (start (T:=unit) (connection_with [Integer 1]) false)
          [CallFlush; Settle 0; Finally]))
     = connection_with [Integer 1].
Proof.
  split; [reflexivity|]. split; [reflexivity|]. split; [reflexivity|].
  split; [reflexivity|]. split; [reflexivity|].
  exact (proj1 (proj2 (flush_nothing_pending (T:=unit) []
                         (start (connection_with [Integer 1]) false)
                         eq_refl eq_refl eq_refl eq_refl eq_refl))).
Defined.

End PipelineFailures.
